(** * Backbone.Router commander: route registry and dispatch pipeline

    A shallow embedding of [src/backbone.router.js].  The router object and
    the closure variables of the module ([routes], [extendedRoutes],
    [extendedController], [closeControllers], [cachedTriggers]) become one
    explicit [state] record threaded through every method.  Calls into the
    outside world (the route actions, the close controllers, the event
    dispatcher, [router.navigate], [Backbone.history.start], [localStorage])
    are recorded as [event]s in a trace that is part of the state; the
    functions the application supplies (actions, close controllers, event
    listeners, the log function) are taken to return normally and not to
    call the router themselves.  A JavaScript [TypeError] is an explicit
    outcome, and the mutual recursion between [processControllers], the
    controller wrappers and the trigger pipeline is bounded by a fuel
    argument. *)

From Stdlib Require Import String Ascii List Bool Arith ZArith Lia.
From Stdlib Require Import DecimalString.
Import ListNotations.
Local Open Scope string_scope.
Local Open Scope list_scope.

Set Implicit Arguments.

(** ** JavaScript values and strings *)

Module Js.

(** The primitive values that travel through the router as route arguments,
    trigger arguments and return values.  Numbers are restricted to the
    integers, which print in plain decimal notation. *)
Inductive value : Type :=
| VUndefined
| VNull
| VBool (b : bool)
| VNum (z : Z)
| VStr (s : string).

(** An [args] parameter: absent, [null], or an array. *)
Inductive jsargs : Type :=
| AUndefined
| ANull
| AArr (l : list value).

(** [ToString] as [Array.prototype.join] applies it to an element:
    [undefined] and [null] give the empty string. *)
Definition join_string (v : value) : string :=
  match v with
  | VUndefined | VNull => ""
  | VBool true => "true"
  | VBool false => "false"
  | VNum z => NilZero.string_of_int (Z.to_int z)
  | VStr s => s
  end.

(** Truthiness of a string: only the empty string is falsy. *)
Definition truthy (s : string) : bool :=
  match s with
  | EmptyString => false
  | String _ _ => true
  end.

(** Truthiness of a possibly [undefined] string. *)
Definition otruthy (o : option string) : bool :=
  match o with
  | Some s => truthy s
  | None => false
  end.

(** [s.charAt(0) == c] *)
Definition charAt0_is (c : ascii) (s : string) : bool :=
  match s with
  | String a _ => Ascii.eqb a c
  | EmptyString => false
  end.

(** [s.substring(1)] *)
Definition substring1 (s : string) : string :=
  match s with
  | String _ t => t
  | EmptyString => ""
  end.

(** [s.split("/")] *)
Fixpoint split_slash (s : string) : list string :=
  match s with
  | EmptyString => [""]
  | String c t =>
      if Ascii.eqb c "/"%char then "" :: split_slash t
      else match split_slash t with
           | h :: r => String c h :: r
           | [] => [String c ""]
           end
  end.

(** [parts.join("/")] on parts that are already strings. *)
Fixpoint join_slash (l : list string) : string :=
  match l with
  | [] => ""
  | [x] => x
  | x :: r => x ++ "/" ++ join_slash r
  end.

(** [a[i]]: reading past the end of an array gives [undefined]. *)
Definition index (a : list value) (i : nat) : value :=
  nth i a VUndefined.

End Js.
Import Js.

(** ** Objects used as maps

    [routes], [extendedRoutes], [extendedController] and [closeControllers]
    are plain objects keyed by strings.  An object is kept as an association
    list in creation order of its keys; assigning to an existing key keeps
    the key's position.  Enumeration ([for .. in], [_.forEach] on an object)
    lists the keys that are array indices first, in ascending numeric order,
    and then the other keys in creation order.  Only own properties are
    kept: a key is not the name of a member of [Object.prototype], which a
    lookup on a plain object would find. *)

Module Obj.

Section WithValue.
Variable V : Type.

Definition t := list (string * V).

Definition empty : t := [].

(** [o[k]] *)
Fixpoint get (k : string) (o : t) : option V :=
  match o with
  | [] => None
  | (k', v) :: r => if String.eqb k k' then Some v else get k r
  end.

(** [o[k] = v] *)
Fixpoint set (k : string) (v : V) (o : t) : t :=
  match o with
  | [] => [(k, v)]
  | (k', v') :: r =>
      if String.eqb k k' then (k', v) :: r else (k', v') :: set k v r
  end.

Definition is_digit (c : ascii) : bool :=
  let n := nat_of_ascii c in ((48 <=? n) && (n <=? 57))%nat.

Fixpoint all_digits (s : string) : bool :=
  match s with
  | EmptyString => true
  | String c r => is_digit c && all_digits r
  end.

Fixpoint digits_value (acc : N) (s : string) : N :=
  match s with
  | EmptyString => acc
  | String c r => digits_value (10 * acc + (N_of_ascii c - 48))%N r
  end.

(** A key is an array index when it is the canonical decimal form of an
    integer between 0 and 2^32 - 2. *)
Definition array_index (k : string) : option N :=
  match k with
  | EmptyString => None
  | String c r =>
      if all_digits k && (negb (Ascii.eqb c "0"%char) || String.eqb r "")
         && (String.length k <=? 10)%nat
      then let n := digits_value 0 k in
           if (n <=? 4294967294)%N then Some n else None
      else None
  end.

Fixpoint insert_index (n : N) (kv : string * V) (l : list (N * (string * V)))
  : list (N * (string * V)) :=
  match l with
  | [] => [(n, kv)]
  | (m, kv') :: r =>
      if (n <=? m)%N then (n, kv) :: l else (m, kv') :: insert_index n kv r
  end.

Fixpoint index_entries (o : t) : list (N * (string * V)) :=
  match o with
  | [] => []
  | (k, v) :: r =>
      match array_index k with
      | Some n => insert_index n (k, v) (index_entries r)
      | None => index_entries r
      end
  end.

Fixpoint named_entries (o : t) : t :=
  match o with
  | [] => []
  | (k, v) :: r =>
      match array_index k with
      | Some _ => named_entries r
      | None => (k, v) :: named_entries r
      end
  end.

(** The own properties in enumeration order. *)
Definition entries (o : t) : t :=
  map snd (index_entries o) ++ named_entries o.

End WithValue.

Arguments empty {V}.

End Obj.

(** ** The path parser *)

(** [parse]'s callback over the parts, with the running [argIndex]. *)
Fixpoint parse_parts (parts : list string) (args : list value) (argIndex : nat)
  : list value :=
  match parts with
  | [] => []
  | part :: rest =>
      if charAt0_is ":"%char part
      then index args argIndex :: parse_parts rest args (S argIndex)
      else VStr part :: parse_parts rest args argIndex
  end.

(** [Backbone.Router.parse(path, args)] for a string [path]. *)
Definition parse (path : string) (args : jsargs) : string :=
  match args with
  | AArr ((_ :: _) as a) =>
      join_slash (map join_string (parse_parts (split_slash path) a 0))
  | _ => path
  end.


(** ** Route definitions, triggers and the router state *)

(** A trigger: a bare name, or an object [{name, args, cache}] whose [args],
    when present, is an array. *)
Inductive trigger : Type :=
| TStr (name : string)
| TObj (name : string) (args : option (list value)) (cache : bool).

(** The [before] and [after] members of a definition: absent, one trigger,
    or an array of triggers. *)
Inductive triggers : Type :=
| TsNone
| TsOne (t : trigger)
| TsMany (l : list trigger).

(** The [action] member: absent, a function (named by a token), or the
    name of another route. *)
Inductive action : Type :=
| NoAction
| Invoke (f : nat)
| AliasTo (target : string).

(** The [options] argument of [go], before the defaults are merged in. *)
Record nav_options : Type := {
  nav_trigger : option bool;
  nav_replace : option bool
}.

(** A close controller: only the truthiness of what it returns is looked
    at, so it is a boolean function of [(name, args, options)]. *)
Definition close_controller : Type :=
  option string -> jsargs -> nav_options -> bool.

Record route_def : Type := {
  def_path : option string;
  def_authed : option bool;
  def_before : triggers;
  def_action : action;
  def_after : triggers;
  def_close : option close_controller
}.

(** The closure [controllerWrapper] built by one call of [route]: it
    captures [currentName] and [def]. *)
Record wrapper : Type := {
  currentName : string;
  def : route_def
}.

(** A member of [extendedController]. *)
Record chain : Type := {
  re : option string;   (* the template the matcher was compiled from *)
  wrappers : list wrapper
}.

(** A member of [cachedTriggers]: a copy of the trigger plus [done]. *)
Record cached : Type := {
  cached_name : string;
  cached_args : option (list value);
  cached_cache : bool;
  done : bool
}.

Record options : Type := {
  pushState : bool;
  authed : bool;
  redirectToLogin : bool;
  root : string;
  debug : bool
}.

Definition defaultOptions : options :=
  {| pushState := true; authed := false; redirectToLogin := false;
     root := ""; debug := false |}.

(** What the router does to the outside world. *)
Inductive event : Type :=
| EAction (w : wrapper) (args : list value)
    (* def.action.apply(self, args) inside wrapper w *)
| ETrigger (name : string) (args : list value)
    (* dispatcher.trigger(name, args...) *)
| EClose (route : string) (name : option string) (args : jsargs)
         (opts : nav_options)
    (* closeControllers[route].call(self, name, args, options) *)
| ENavigate (path : string) (trigger replace : bool)
    (* router.navigate(path, options) *)
| EHistoryStart (push : bool) (rootUrl : string)
    (* Backbone.history.start({pushState, root}) *).

Record state : Type := {
  routes : Obj.t string;
  extendedRoutes : Obj.t (list string);
  extendedController : Obj.t chain;
  closeControllers : Obj.t close_controller;
  cachedTriggers : list cached;
  currentRoutes : list string;
  this_options : option options;     (* this.options, unset before start *)
  dispatcher : bool;                 (* this.dispatcher is not null *)
  router : bool;                     (* the closure variable router is not null *)
  pathname : string;                 (* window.location.pathname *)
  hash : string;                     (* window.location.hash *)
  stored : option string;            (* localStorage["backbone-router:path"] *)
  trace : list event
}.

(** The module as loaded, for a given [window.location]. *)
Definition init (pathname hash : string) : state :=
  {| routes := Obj.empty; extendedRoutes := Obj.empty;
     extendedController := Obj.empty; closeControllers := Obj.empty;
     cachedTriggers := []; currentRoutes := []; this_options := None;
     dispatcher := false; router := false; pathname := pathname;
     hash := hash; stored := None; trace := [] |}.

Definition set_routes (v : Obj.t string) (s : state) : state :=
  {| routes := v; extendedRoutes := extendedRoutes s;
     extendedController := extendedController s;
     closeControllers := closeControllers s;
     cachedTriggers := cachedTriggers s; currentRoutes := currentRoutes s;
     this_options := this_options s; dispatcher := dispatcher s;
     router := router s; pathname := pathname s; hash := hash s;
     stored := stored s; trace := trace s |}.

Definition set_extendedRoutes (v : Obj.t (list string)) (s : state) : state :=
  {| routes := routes s; extendedRoutes := v;
     extendedController := extendedController s;
     closeControllers := closeControllers s;
     cachedTriggers := cachedTriggers s; currentRoutes := currentRoutes s;
     this_options := this_options s; dispatcher := dispatcher s;
     router := router s; pathname := pathname s; hash := hash s;
     stored := stored s; trace := trace s |}.

Definition set_extendedController (v : Obj.t chain) (s : state) : state :=
  {| routes := routes s; extendedRoutes := extendedRoutes s;
     extendedController := v;
     closeControllers := closeControllers s;
     cachedTriggers := cachedTriggers s; currentRoutes := currentRoutes s;
     this_options := this_options s; dispatcher := dispatcher s;
     router := router s; pathname := pathname s; hash := hash s;
     stored := stored s; trace := trace s |}.

Definition set_closeControllers (v : Obj.t close_controller) (s : state)
  : state :=
  {| routes := routes s; extendedRoutes := extendedRoutes s;
     extendedController := extendedController s;
     closeControllers := v;
     cachedTriggers := cachedTriggers s; currentRoutes := currentRoutes s;
     this_options := this_options s; dispatcher := dispatcher s;
     router := router s; pathname := pathname s; hash := hash s;
     stored := stored s; trace := trace s |}.

Definition set_cachedTriggers (v : list cached) (s : state) : state :=
  {| routes := routes s; extendedRoutes := extendedRoutes s;
     extendedController := extendedController s;
     closeControllers := closeControllers s;
     cachedTriggers := v; currentRoutes := currentRoutes s;
     this_options := this_options s; dispatcher := dispatcher s;
     router := router s; pathname := pathname s; hash := hash s;
     stored := stored s; trace := trace s |}.

Definition set_currentRoutes (v : list string) (s : state) : state :=
  {| routes := routes s; extendedRoutes := extendedRoutes s;
     extendedController := extendedController s;
     closeControllers := closeControllers s;
     cachedTriggers := cachedTriggers s; currentRoutes := v;
     this_options := this_options s; dispatcher := dispatcher s;
     router := router s; pathname := pathname s; hash := hash s;
     stored := stored s; trace := trace s |}.

Definition set_options (v : option options) (s : state) : state :=
  {| routes := routes s; extendedRoutes := extendedRoutes s;
     extendedController := extendedController s;
     closeControllers := closeControllers s;
     cachedTriggers := cachedTriggers s; currentRoutes := currentRoutes s;
     this_options := v; dispatcher := dispatcher s;
     router := router s; pathname := pathname s; hash := hash s;
     stored := stored s; trace := trace s |}.

Definition set_dispatcher (v : bool) (s : state) : state :=
  {| routes := routes s; extendedRoutes := extendedRoutes s;
     extendedController := extendedController s;
     closeControllers := closeControllers s;
     cachedTriggers := cachedTriggers s; currentRoutes := currentRoutes s;
     this_options := this_options s; dispatcher := v;
     router := router s; pathname := pathname s; hash := hash s;
     stored := stored s; trace := trace s |}.

Definition set_router (v : bool) (s : state) : state :=
  {| routes := routes s; extendedRoutes := extendedRoutes s;
     extendedController := extendedController s;
     closeControllers := closeControllers s;
     cachedTriggers := cachedTriggers s; currentRoutes := currentRoutes s;
     this_options := this_options s; dispatcher := dispatcher s;
     router := v; pathname := pathname s; hash := hash s;
     stored := stored s; trace := trace s |}.

Definition set_stored (v : option string) (s : state) : state :=
  {| routes := routes s; extendedRoutes := extendedRoutes s;
     extendedController := extendedController s;
     closeControllers := closeControllers s;
     cachedTriggers := cachedTriggers s; currentRoutes := currentRoutes s;
     this_options := this_options s; dispatcher := dispatcher s;
     router := router s; pathname := pathname s; hash := hash s;
     stored := v; trace := trace s |}.

(** Record one call into the outside world. *)
Definition emit (e : event) (s : state) : state :=
  {| routes := routes s; extendedRoutes := extendedRoutes s;
     extendedController := extendedController s;
     closeControllers := closeControllers s;
     cachedTriggers := cachedTriggers s; currentRoutes := currentRoutes s;
     this_options := this_options s; dispatcher := dispatcher s;
     router := router s; pathname := pathname s; hash := hash s;
     stored := stored s; trace := trace s ++ [e] |}.

(** ** Outcomes of a method call *)

(** A call returns a value, throws a [TypeError] (reading a member of
    [undefined] or [null], calling what is not a function), or is still
    running when the fuel is used up.  Each case carries the state reached:
    what was mutated before a throw stays mutated. *)
Inductive outcome (A : Type) : Type :=
| Ret (a : A) (s : state)
| TypeError (s : state)
| OutOfFuel (s : state).

Arguments TypeError {A} s.
Arguments OutOfFuel {A} s.

Definition M (A : Type) : Type := state -> outcome A.

Definition ret {A} (a : A) : M A := fun s => Ret a s.

Definition bind {A B} (m : M A) (k : A -> M B) : M B :=
  fun s => match m s with
           | Ret a s' => k a s'
           | TypeError s' => TypeError s'
           | OutOfFuel s' => OutOfFuel s'
           end.

Notation "x <- m ;; k" := (bind m (fun x => k))
  (at level 61, m at next level, right associativity).
Notation "m ;; k" := (bind m (fun _ => k))
  (at level 61, right associativity).

(** The state an outcome ends in. *)
Definition final {A} (o : outcome A) : state :=
  match o with
  | Ret _ s | TypeError s | OutOfFuel s => s
  end.

Definition modify (f : state -> state) : M unit := fun s => Ret tt (f s).

(** [_.forEach(array, callback)] *)
Fixpoint forEach {A} (l : list A) (callback : A -> M unit) : M unit :=
  match l with
  | [] => ret tt
  | x :: r => callback x ;; forEach r callback
  end.

(** ** The router's methods *)

Section Router.

(** [re_test template p] is [router._routeToRegExp(template).test(p)]: the
    way Backbone compiles a path template into a regular expression is not
    part of this module. *)
Variable re_test : string -> string -> bool.

(** [this.options.log(...)]: reads a member of [this.options], which
    [start] creates.  What the log function prints is not recorded. *)
Definition log : M unit :=
  fun s => match this_options s with
           | Some _ => Ret tt s
           | None => TypeError s
           end.

(** The parameter of [exists]. *)
Record exists_params : Type := {
  params_name : option string;
  params_path : option string
}.

Definition by_name (n : string) : exists_params :=
  {| params_name := Some n; params_path := None |}.

Definition by_path (p : string) : exists_params :=
  {| params_name := None; params_path := Some p |}.

Definition matcher_accepts (p : string) (kv : string * chain) : bool :=
  match re (snd kv) with
  | Some template => re_test template p
  | None => false
  end.

(** [exists(params)] *)
Definition exists_ (params : exists_params) (s : state) : bool :=
  if otruthy (params_name params) then
    match params_name params with
    | Some n =>
        match Obj.get n (extendedController s) with
        | Some _ => true
        | None => false
        end
    | None => false
    end
  else if otruthy (params_path params) then
    match params_path params with
    | Some p => existsb (matcher_accepts p) (Obj.entries (extendedController s))
    | None => false
    end
  else false.

(** [path(routeName)]: [None] stands for [false]. *)
Definition path (routeName : string) (s : state) : option string :=
  fold_left
    (fun result kv =>
       fold_left
         (fun result route =>
            if String.eqb route routeName then Some (fst kv) else result)
         (snd kv) result)
    (Obj.entries (extendedRoutes s)) None.

(** The current raw path, [options.pushState ?
    window.location.pathname.substring(1) : window.location.hash.substring(1)]. *)
Definition raw_path (o : options) (s : state) : string :=
  if pushState o then substring1 (pathname s) else substring1 (hash s).

(** The property key that a possibly [undefined] path turns into. *)
Definition path_key (p : option string) : string :=
  match p with
  | Some k => k
  | None => "undefined"
  end.

(** [def.path] after the leading slash is removed. *)
Definition strip_path (p : option string) : option string :=
  match p with
  | Some k => if truthy k && charAt0_is "/"%char k
              then Some (substring1 k) else Some k
  | None => None
  end.

Definition with_path (p : option string) (d : route_def) : route_def :=
  {| def_path := p; def_authed := def_authed d; def_before := def_before d;
     def_action := def_action d; def_after := def_after d;
     def_close := def_close d |}.

(** [route(name, def)] *)
Definition route (name : string) (def0 : route_def) : M unit :=
  fun s =>
    let currentName := name in
    let def := with_path (strip_path (def_path def0)) def0 in
    let key := path_key (def_path def) in
    let owned :=
      match Obj.get key (routes s) with
      | Some owner => if truthy owner then Some owner else None
      | None => None
      end in
    let name := match owned with Some owner => owner | None => name end in
    let s :=
      match owned with
      | Some _ => s
      | None =>
          let s := set_extendedRoutes (Obj.set key [] (extendedRoutes s)) s in
          let s := set_extendedController
                     (Obj.set name {| re := None; wrappers := [] |}
                        (extendedController s)) s in
          match def_path def with
          | Some p => set_routes (Obj.set p name (routes s)) s
          | None => s
          end
      end in
    let s :=
      match def_close def with
      | Some c => set_closeControllers
                    (Obj.set currentName c (closeControllers s)) s
      | None => s
      end in
    let controllerWrapper := {| currentName := currentName; def := def |} in
    match Obj.get key (extendedRoutes s) with
    | None => TypeError s
    | Some names =>
        let s := set_extendedRoutes
                   (Obj.set key (names ++ [currentName]) (extendedRoutes s)) s in
        match Obj.get name (extendedController s) with
        | None => TypeError s
        | Some c =>
            let s := set_extendedController
                       (Obj.set name
                          {| re := re c;
                             wrappers := wrappers c ++ [controllerWrapper] |}
                          (extendedController s)) s in
            let s :=
              if String.eqb name currentName then s
              else set_extendedController
                     (Obj.set currentName
                        {| re := None; wrappers := [controllerWrapper] |}
                        (extendedController s)) s in
            Ret tt s
        end
    end.

(** [storeCurrentRoute()] *)
Definition storeCurrentRoute : M unit :=
  fun s =>
    match this_options s with
    | None => TypeError s
    | Some o =>
        let p := substring1 (if pushState o then pathname s else hash s) in
        (log ;; modify (set_stored (Some p))) s
    end.

(** [getStoredRoute()] *)
Definition getStoredRoute (s : state) : option string := stored s.

(** [clearStore()] *)
Definition clearStore : M unit := modify (set_stored None).

(** [clearCache()] *)
Definition clearCache : M unit := modify (set_cachedTriggers []).

(** Position of the first record named [n], as [_.find] walks the array. *)
Fixpoint find_cached (n : string) (l : list cached) : option nat :=
  match l with
  | [] => None
  | c :: r => if String.eqb (cached_name c) n then Some 0
              else option_map S (find_cached n r)
  end.

(** [findCachedTrigger(trigger)], giving the position of the record in
    [cachedTriggers].  When no record is found one is pushed and the method
    calls itself; that second call is written out, and finds the record. *)
Definition findCachedTrigger (name : string) (args : option (list value))
    (cache : bool) : M nat :=
  fun s =>
    match find_cached name (cachedTriggers s) with
    | Some i => Ret i s
    | None =>
        let s := set_cachedTriggers
                   (cachedTriggers s ++
                    [{| cached_name := name; cached_args := args;
                        cached_cache := cache; done := false |}]) s in
        match find_cached name (cachedTriggers s) with
        | Some i => Ret i s
        | None => OutOfFuel s
        end
    end.

(** [cache.done] for the record at position [i]. *)
Definition cache_done (i : nat) (s : state) : bool :=
  match nth_error (cachedTriggers s) i with
  | Some c => done c
  | None => false
  end.

Fixpoint mark_done (i : nat) (l : list cached) {struct l} : list cached :=
  match l, i with
  | [], _ => []
  | c :: r, 0 => {| cached_name := cached_name c; cached_args := cached_args c;
                    cached_cache := cached_cache c; done := true |} :: r
  | c :: r, S j => c :: mark_done j r
  end.

(** [this.dispatcher.trigger.apply(this.dispatcher, [name, args...])] *)
Definition dispatch (name : string) (args : list value) : M unit :=
  fun s => if dispatcher s then Ret tt (emit (ETrigger name args) s)
           else TypeError s.

(** *** The dispatch pipeline

    [processControllers] calls the wrappers of a chain; a wrapper calls
    [processControllers] again (for [403], [login], an alias target) and
    the trigger pipeline, which calls it for a trigger naming a route.  The
    wrapper and the trigger pipeline are written over the recursive call
    [pc], and [processControllers] ties the knot on the fuel. *)

Section Pipeline.

Variable pc : string -> jsargs -> bool -> M unit.

(** [trigger.args || null] *)
Definition args_or_null (args : option (list value)) : jsargs :=
  match args with
  | Some a => AArr a
  | None => ANull
  end.

(** The arguments handed to the dispatcher after [trigger.args], when it is
    not an array, has been wrapped in one.  The wrapping assigns to
    [trigger.args]; that assignment is not kept here, so a trigger without
    [args] is wrapped afresh each time it is dispatched. *)
Definition wrapped_args (args : option (list value)) : list value :=
  match args with
  | Some a => a
  | None => [VUndefined]
  end.

(** [processTrigger(trigger)] *)
Definition processTrigger (t : trigger) : M unit :=
  match t with
  | TObj name args cache =>
      let rest : M unit :=
        fun s =>
          if exists_ (by_name name) s
          then pc name (args_or_null args) true s
          else dispatch name (wrapped_args args) s in
      if cache then
        i <- findCachedTrigger name args cache ;;
        fun s =>
          if cache_done i s then (log ;; ret tt) s
          else rest (set_cachedTriggers (mark_done i (cachedTriggers s)) s)
      else rest
  | TStr name =>
      fun s =>
        if exists_ (by_name name) s then pc name ANull true s
        else dispatch name [] s
  end.

(** [processTriggers(triggers)] *)
Definition processTriggers (ts : triggers) : M unit :=
  match ts with
  | TsMany l => forEach l processTrigger
  | TsOne t => processTrigger t
  | TsNone => log
  end.

(** [_.isEmpty] on a [before] or [after] member. *)
Definition isEmpty (ts : triggers) : bool :=
  match ts with
  | TsNone => true
  | TsOne (TStr name) => negb (truthy name)
  | TsOne (TObj _ _ _) => false
  | TsMany [] => true
  | TsMany (_ :: _) => false
  end.

(** The auth check of a wrapper: the route is skipped when [def.authed] is
    set and differs from [options.authed]. *)
Definition gate_fails (required : bool) (o : options) : bool :=
  (required && negb (authed o)) || (negb required && authed o).

(** What a wrapper does once the auth check has failed. *)
Definition gate_failure (o : options) : M value :=
  (if redirectToLogin o && negb (authed o)
   then log ;; storeCurrentRoute ;; pc "login" AUndefined false
   else log ;; (fun s => pc "403" (AArr [VStr (raw_path o s)]) false s)) ;;
  ret (VBool false).

(** What a wrapper does once the auth check has passed. *)
Definition run_route (w : wrapper) (args : list value) : M value :=
  match def_action (def w) with
  | AliasTo target =>
      log ;; pc target (AArr args) true ;; ret (VBool false)
  | act =>
      log ;;
      (if isEmpty (def_before (def w)) then ret tt
       else processTriggers (def_before (def w))) ;;
      match act with
      | Invoke _ => modify (emit (EAction w args))
      | _ => ret tt
      end ;;
      (if isEmpty (def_after (def w)) then ret tt
       else processTriggers (def_after (def w))) ;;
      ret VUndefined
  end.

(** The closure [controllerWrapper(args, trigger)] of wrapper [w]. *)
Definition controllerWrapper (w : wrapper) (args : list value)
    (trigger : bool) : M value :=
  (if trigger then ret tt
   else modify (fun s =>
          set_currentRoutes (currentRoutes s ++ [currentName w]) s)) ;;
  match def_authed (def w) with
  | Some required =>
      fun s =>
        match this_options s with
        | None => TypeError s
        | Some o =>
            if gate_fails required o then gate_failure o s
            else run_route w args s
        end
  | None => run_route w args
  end.

End Pipeline.

(** [processControllers(name, args, trigger)].  The branch that would wrap
    an [args] that is not an array tests [!_.isObject], the negation of a
    function, and is never taken. *)
Fixpoint processControllers (fuel : nat) (name : string) (args : jsargs)
    (trigger : bool) : M unit :=
  match fuel with
  | 0 => fun s => OutOfFuel s
  | S fuel' =>
      let args := match args with AArr a => a | _ => [] end in
      fun s =>
        match Obj.get name (extendedController s) with
        | None => TypeError s
        | Some c =>
            forEach (wrappers c)
              (fun callback =>
                 controllerWrapper (processControllers fuel') callback
                   args trigger ;; ret tt) s
        end
  end.

(** The function stored as [controller[name]], which Backbone calls with
    the parameters it extracted when the URL matches the route's path. *)
Definition controller (fuel : nat) (name : string) (arguments : list value)
  : M unit :=
  processControllers fuel name (AArr arguments) false.

(** The first argument of [go]: a route name, or an object
    [{name, path, args}]. *)
Inductive go_target : Type :=
| GName (name : option string)
| GRoute (name : option string) (path : option string) (args : jsargs).

(** The close-controller loop of [go]: each call overwrites
    [continueProcess].  The [self] given to the close controller as its
    [this] is not declared in [go]: it is the global [window.self]. *)
Fixpoint run_close (l : list string) (name : option string) (args : jsargs)
    (opts : nav_options) (continueProcess : bool) (s : state)
  : bool * state :=
  match l with
  | [] => (continueProcess, s)
  | route :: r =>
      match Obj.get route (closeControllers s) with
      | Some c =>
          if match name with
             | Some n => String.eqb n route
             | None => false
             end
          then run_close r name args opts continueProcess s
          else run_close r name args opts (c name args opts)
                 (emit (EClose route name args opts) s)
      | None => run_close r name args opts continueProcess s
      end
  end.

(** [_.extend({trigger: true, replace: false}, options)] *)
Definition extend_nav (opts : nav_options) : bool * bool :=
  (match nav_trigger opts with Some b => b | None => true end,
   match nav_replace opts with Some b => b | None => false end).

(** [router.navigate(path, options)].  What Backbone then does (change the
    URL and, with [trigger], call the [controller] function of the route
    that matches) happens outside [go]. *)
Definition navigate (p : string) (opts : bool * bool) : M unit :=
  fun s => if router s then Ret tt (emit (ENavigate p (fst opts) (snd opts)) s)
           else TypeError s.

(** [go]'s branch for a missing name and path. *)
Definition go_missing : M value := log ;; ret (VBool false).

(** [go]'s branch for a route that does not exist; the function ends
    without a [return]. *)
Definition go_not_found (fuel : nat) : M value :=
  log ;;
  (fun s =>
     match this_options s with
     | None => TypeError s
     | Some o => processControllers fuel "404" (AArr [VStr (raw_path o s)])
                   false s
     end) ;;
  ret VUndefined.

(** [go]'s branch for a route that exists. *)
Definition go_proceed (name given : option string) (args : jsargs)
    (opts : nav_options) : M value :=
  fun s =>
    let (continueProcess, s) :=
      run_close (currentRoutes s) name args opts true s in
    if negb continueProcess then Ret (VBool false) s
    else
      let s := set_currentRoutes [] s in
      let options := extend_nav opts in
      let resolved : outcome (option string) :=
        if negb (otruthy given) then
          match match name with Some n => path n s | None => None end,
                args with
          | Some p, AArr (_ :: _) => Ret (Some (parse p args)) s
          | None, AArr (_ :: _) => TypeError s
          | found, _ => Ret found s
          end
        else Ret given s in
      match resolved with
      | Ret (Some p) s => (navigate p options ;; ret (VBool true)) s
      | Ret None s => Ret (VBool true) s
      | TypeError s => TypeError s
      | OutOfFuel s => OutOfFuel s
      end.

(** [go(name, args, options)] *)
Definition go (fuel : nat) (target : go_target) (args : jsargs)
    (opts : nav_options) : M value :=
  let name := match target with GName n => n | GRoute n _ _ => n end in
  let path := match target with
              | GName _ => None
              | GRoute _ (Some p) _ =>
                  if charAt0_is "/"%char p then Some (substring1 p) else Some p
              | GRoute _ None _ => None
              end in
  let args := match target with
              | GRoute _ _ (AArr a) => AArr a
              | _ => args
              end in
  fun s =>
    if negb (otruthy name) && negb (otruthy path) then go_missing s
    else if (otruthy name &&
             negb (exists_ {| params_name := name; params_path := None |} s))
            || (otruthy path &&
                negb (exists_ {| params_name := None; params_path := path |} s))
    then go_not_found fuel s
    else go_proceed name path args opts s.

(** The [app] argument of [start]. *)
Inductive app_arg : Type :=
| NotAnObject
| App (vent : bool).

(** The [options] argument of [start]. *)
Record start_options : Type := {
  user_pushState : option bool;
  user_authed : option bool;
  user_redirectToLogin : option bool;
  user_root : option string;
  user_debug : option bool
}.

(** [_.extend({}, defaultOptions, options)] *)
Definition extend_options (u : start_options) : options :=
  {| pushState := match user_pushState u with
                  | Some b => b | None => pushState defaultOptions end;
     authed := match user_authed u with
               | Some b => b | None => authed defaultOptions end;
     redirectToLogin := match user_redirectToLogin u with
                        | Some b => b
                        | None => redirectToLogin defaultOptions end;
     root := match user_root u with
             | Some r => r | None => root defaultOptions end;
     debug := match user_debug u with
              | Some b => b | None => debug defaultOptions end |}.

(** The loop of [start] that stores the matcher of each route. *)
Definition compile_route (kv : string * string) : M unit :=
  fun s =>
    let (path, name) := kv in
    if exists_ (by_name name) s then
      match Obj.get name (extendedController s) with
      | Some c =>
          Ret tt (set_extendedController
                    (Obj.set name {| re := Some path; wrappers := wrappers c |}
                       (extendedController s)) s)
      | None => TypeError s
      end
    else Ret tt s.

(** [start(app, options)].  Two facts come from Backbone and are arguments
    here: [history_started] is [Backbone.History.started], and [loaded] is
    the route whose [controller] function [Backbone.history.start] calls for
    the URL of the page, with the parameters it extracted, if the URL
    matches a route. *)
Definition start (fuel : nat) (app : app_arg) (user : start_options)
    (history_started : bool) (loaded : option (string * list value))
  : M value :=
  modify (set_options (Some (extend_options user))) ;;
  (fun s =>
     match dispatcher s, app with
     | false, App _ => Ret tt (set_dispatcher true s)
     | _, _ => TypeError s   (* this.log is not a function *)
     end) ;;
  log ;;
  modify (set_router true) ;;
  (fun s => forEach (Obj.entries (routes s)) compile_route s) ;;
  (if history_started then ret tt
   else
     log ;;
     (fun s =>
        match this_options s with
        | None => TypeError s
        | Some o => Ret tt (emit (EHistoryStart (pushState o) (root o)) s)
        end) ;;
     match loaded with
     | None =>
         log ;;
         (fun s =>
            match this_options s with
            | None => TypeError s
            | Some o =>
                processControllers fuel "404" (AArr [VStr (raw_path o s)])
                  false s
            end)
     | Some (name, arguments) =>
         controller fuel name arguments ;;
         (fun s =>
            match getStoredRoute s with
            | Some storedRoute =>
                if truthy storedRoute then
                  (log ;; clearStore ;;
                   go fuel (GRoute None (Some storedRoute) AUndefined)
                     AUndefined
                     {| nav_trigger := None; nav_replace := None |} ;;
                   ret tt) s
                else Ret tt s
            | None => Ret tt s
            end)
     end) ;;
  ret VUndefined.

End Router.

(** ** Definitions used to state the properties *)



(** The part of the state that the dispatch pipeline and [go] only read. *)
Definition config (s : state) :=
  (routes s, extendedRoutes s, extendedController s, closeControllers s,
   this_options s, dispatcher s, router s, pathname s, hash s).

(** Wrapper [w] passes its auth check in state [s]. *)
Definition gate_ok (w : wrapper) (s : state) : Prop :=
  exists o, this_options s = Some o /\
            match def_authed (def w) with
            | Some required => gate_fails required o = false
            | None => True
            end.

(** [n] names a route: [exists({name: n})] is true. *)
Definition is_route (n : string) (s : state) : bool :=
  otruthy (Some n) &&
  match Obj.get n (extendedController s) with
  | Some _ => true
  | None => false
  end.

(** The calls into the outside world that the dispatch pipeline can make
    from a state with the registry and options of [s]: the action of a
    wrapper that passes its auth check, and an event whose name is not a
    route. *)
Definition allowed (s : state) (e : event) : Prop :=
  match e with
  | EAction w _ => gate_ok w s /\ exists f, def_action (def w) = Invoke f
  | ETrigger n _ => is_route n s = false
  | _ => False
  end.

(** [s'] is reached from [s] by the dispatch pipeline: registry and
    options are the same, and the trace has grown by allowed events. *)
Definition steps (s s' : state) : Prop :=
  config s' = config s /\
  exists evs, trace s' = trace s ++ evs /\ Forall (allowed s) evs.


(** The state a wrapper works in after its first statement: the route name
    is pushed on [currentRoutes] unless the call comes from a trigger. *)
Definition pushed (trigger : bool) (w : wrapper) (s : state) : state :=
  if trigger then s
  else set_currentRoutes (currentRoutes s ++ [currentName w]) s.

(** The cached record of trigger name [n] exists and is marked done. *)
Definition fired (n : string) (s : state) : bool :=
  match find_cached n (cachedTriggers s) with
  | Some i => cache_done i s
  | None => false
  end.

(** The state after [processTrigger] has looked up (or created) the cached
    record of a trigger and marked it done. *)
Definition cache_mark (name : string) (args : option (list value))
    (s : state) : state :=
  match findCachedTrigger name args true s with
  | Ret i s1 => set_cachedTriggers (mark_done i (cachedTriggers s1)) s1
  | TypeError s1 | OutOfFuel s1 => s1
  end.


(** The name a trigger carries. *)
Definition trigger_name (t : trigger) : string :=
  match t with
  | TStr name => name
  | TObj name _ _ => name
  end.

(** The wrapper that [route name d] builds. *)
Definition wrapper_of (name : string) (d : route_def) : wrapper :=
  {| currentName := name; def := with_path (strip_path (def_path d)) d |}.

(** A series of [route] calls, as made by the function given to [map]. *)
Fixpoint declare (decls : list (string * route_def)) (s : state) : state :=
  match decls with
  | [] => s
  | (name, d) :: r => declare r (final (route name d s))
  end.

(** The name and the path that [go] takes from its first argument. *)
Definition target_name (t : go_target) : option string :=
  match t with
  | GName n => n
  | GRoute n _ _ => n
  end.

Definition target_path (t : go_target) : option string :=
  match t with
  | GName _ => None
  | GRoute _ (Some p) _ =>
      if charAt0_is "/"%char p then Some (substring1 p) else Some p
  | GRoute _ None _ => None
  end.


(** The states the router can be in while [start] has not been called. *)
Inductive unstarted (re_test : string -> string -> bool) : state -> Prop :=
| unstarted_init pathname hash :
    unstarted re_test (init pathname hash)
| unstarted_route s name d :
    unstarted re_test s -> unstarted re_test (final (route name d s))
| unstarted_go s fuel t args opts :
    unstarted re_test s ->
    unstarted re_test (final (go re_test fuel t args opts s))
| unstarted_processTriggers s fuel ts :
    unstarted re_test s ->
    unstarted re_test
      (final (processTriggers re_test (processControllers re_test fuel) ts s))
| unstarted_processControllers s fuel name args trigger :
    unstarted re_test s ->
    unstarted re_test
      (final (processControllers re_test fuel name args trigger s))
| unstarted_clearCache s :
    unstarted re_test s -> unstarted re_test (final (clearCache s))
| unstarted_storeCurrentRoute s :
    unstarted re_test s -> unstarted re_test (final (storeCurrentRoute s))
| unstarted_clearStore s :
    unstarted re_test s -> unstarted re_test (final (clearStore s))
| unstarted_dispatcher s :
    (* Backbone.Router.dispatcher = myEvents *)
    unstarted re_test s -> unstarted re_test (set_dispatcher true s).

(** No chain has a compiled matcher. *)
Definition no_matcher (s : state) : Prop :=
  Forall (fun kv : string * chain => re (snd kv) = None)
    (extendedController s).

(** ** A small application, used for the concrete instances *)

Module Scenario.

(** A matcher for templates without parameters: the path is the template. *)
Definition lit (template p : string) : bool := String.eqb template p.

Definition plain (p : string) (f : nat) : route_def :=
  {| def_path := Some p; def_authed := None; def_before := TsNone;
     def_action := Invoke f; def_after := TsNone; def_close := None |}.

Definition secured (p : string) (f : nat) : route_def :=
  {| def_path := Some p; def_authed := Some true; def_before := TsNone;
     def_action := Invoke f; def_after := TsNone; def_close := None |}.

Definition alias (p : string) (required : option bool) (target : string)
  : route_def :=
  {| def_path := Some p; def_authed := required; def_before := TsNone;
     def_action := AliasTo target; def_after := TsNone; def_close := None |}.

Definition closing (p : string) (f : nat) (answer : bool) : route_def :=
  {| def_path := Some p; def_authed := None; def_before := TsNone;
     def_action := Invoke f; def_after := TsNone;
     def_close := Some (fun _ _ _ => answer) |}.

Definition no_nav : nav_options :=
  {| nav_trigger := None; nav_replace := None |}.

Definition no_user : start_options :=
  {| user_pushState := None; user_authed := None;
     user_redirectToLogin := None; user_root := None; user_debug := None |}.

(** [home], [admin] (for logged-in users), [old] (an alias of [home] for
    logged-in users), [403] and [404], started on the page [/home] with a
    logged-out user. *)
Definition declared : state :=
  declare [("home", plain "/home" 1);
           ("admin", secured "/admin" 2);
           ("old", alias "/old" (Some true) "home");
           ("403", plain "/403" 3);
           ("404", plain "/404" 4)] (init "/home" "").

Definition app : state :=
  final (start lit 8 (App true) no_user false (Some ("home", [])) declared).

Definition home_w : wrapper := wrapper_of "home" (plain "/home" 1).
Definition admin_w : wrapper := wrapper_of "admin" (secured "/admin" 2).
Definition old_w : wrapper :=
  wrapper_of "old" (alias "/old" (Some true) "home").
Definition forbidden_w : wrapper := wrapper_of "403" (plain "/403" 3).
Definition notfound_w : wrapper := wrapper_of "404" (plain "/404" 4).

(** The same application after the trigger [{name: "home", cache: true}]
    has been processed once. *)
Definition app_fired : state :=
  final (processTrigger lit (processControllers lit 8)
           (TObj "home" None true) app).

(** [list] and [detail] share the path [/items] and both have a close
    controller: the one of [list] answers [false], the one of [detail]
    answers [true].  The page is loaded on [/items], then [go("about")]
    is called. *)
Definition shop_declared : state :=
  declare [("list", closing "/items" 1 false);
           ("detail", closing "/items" 2 true);
           ("about", plain "/about" 3)] (init "/items" "").

Definition shop : state :=
  final (start lit 8 (App true) no_user false (Some ("list", []))
           shop_declared).


End Scenario.


(** The event dispatcher is given the name [n]. *)
Definition fires (n : string) (e : event) : bool :=
  match e with
  | ETrigger m _ => String.eqb m n
  | _ => false
  end.

(** How often the event dispatcher was given the name [n]. *)
Definition count_fired (n : string) (tr : list event) : nat :=
  length (filter (fires n) tr).

(** A run of [processTrigger] calls, one after the other, whatever each
    call ends in. *)
Fixpoint process_all (re_test : string -> string -> bool) (fuel : nat)
    (ts : list trigger) (s : state) : state :=
  match ts with
  | [] => s
  | t :: r =>
      process_all re_test fuel r
        (final (processTrigger re_test (processControllers re_test fuel) t s))
  end.

(** [t] is a cache-marked trigger object named [n]. *)
Definition cache_marked (n : string) (t : trigger) : Prop :=
  exists args, t = TObj n args true.


(** A computation is [sound] when it only makes pipeline steps. *)
Definition sound {A} (m : M A) : Prop := forall s, steps s (final (m s)).


(** Case analysis on the first [match] of the goal. *)
Ltac break_match :=
  match goal with
  | |- context [match ?x with _ => _ end] => destruct x eqn:?
  end.




(** ** The remaining methods *)




(** ** Definitions used to state further properties *)

(** [o] has the key [k]. *)
Definition has {V} (k : string) (o : Obj.t V) : bool :=
  match Obj.get k o with
  | Some _ => true
  | None => false
  end.

(** The registry hangs together: no path is listed twice in [routes], and
    a path bound to a non-empty name has its list of names and its owner
    has a chain. *)
Definition registry_ok (s : state) : Prop :=
  NoDup (List.map fst (routes s)) /\
  forall p owner,
    Obj.get p (routes s) = Some owner -> truthy owner = true ->
    has p (extendedRoutes s) = true /\
    has owner (extendedController s) = true.

(** The states that calls of the router's methods lead to from [s0]. *)
Inductive after (re_test : string -> string -> bool) (s0 : state)
  : state -> Prop :=
| after_now : after re_test s0 s0
| after_route s name d :
    after re_test s0 s -> after re_test s0 (final (route name d s))
| after_go s fuel t args opts :
    after re_test s0 s ->
    after re_test s0 (final (go re_test fuel t args opts s))
| after_processTriggers s fuel ts :
    after re_test s0 s ->
    after re_test s0
      (final (processTriggers re_test (processControllers re_test fuel) ts s))
| after_processControllers s fuel name args trigger :
    after re_test s0 s ->
    after re_test s0
      (final (processControllers re_test fuel name args trigger s))
| after_clearCache s :
    after re_test s0 s -> after re_test s0 (final (clearCache s))
| after_storeCurrentRoute s :
    after re_test s0 s -> after re_test s0 (final (storeCurrentRoute s))
| after_clearStore s :
    after re_test s0 s -> after re_test s0 (final (clearStore s))
| after_start s fuel app user started loaded :
    after re_test s0 s ->
    after re_test s0
      (final (start re_test fuel app user started loaded s)).

(** What a dispatch may do to the stored path: leave it, or, when
    [redirectToLogin] is set and the user is logged out, replace it by the
    current raw path. *)
Definition store_rule (s s' : state) : Prop :=
  config s' = config s /\
  (stored s' = stored s \/
   exists o, this_options s = Some o /\ redirectToLogin o = true /\
             authed o = false /\ stored s' = Some (raw_path o s)).

(** [currentRoutes] has only been pushed on. *)
Definition stack_grows (s s' : state) : Prop :=
  exists l, currentRoutes s' = currentRoutes s ++ l.

(** The names of the cached records. *)
Definition cached_names (s : state) : list string :=
  List.map cached_name (cachedTriggers s).

(** The cache keeps one record per name, and a record that is done stays
    done. *)
Definition cache_grows (s s' : state) : Prop :=
  (NoDup (cached_names s) -> NoDup (cached_names s')) /\
  forall n, fired n s = true -> fired n s' = true.

(** A computation keeps the relation [R] between the state it starts in
    and the state it ends in. *)
Definition keeps (R : state -> state -> Prop) {A} (m : M A) : Prop :=
  forall s, R s (final (m s)).

(** The name that owns the key [k] in [routes], as [route] tests it: a
    binding to the empty name does not count. *)
Definition owner_of (k : string) (s : state) : option string :=
  match Obj.get k (routes s) with
  | Some owner => if truthy owner then Some owner else None
  | None => None
  end.

(** The key under which [route] files a definition. *)
Definition key_of (d : route_def) : string :=
  path_key (strip_path (def_path d)).

(** The chains after the loop of [start] has gone over the bindings
    [kvs] of [routes]: each binding of a non-empty name that has a chain
    puts its path into that chain. *)
Fixpoint compiled (kvs : list (string * string)) (ec : Obj.t chain)
  : Obj.t chain :=
  match kvs with
  | [] => ec
  | (p, name) :: r =>
      compiled r
        (if truthy name then
           match Obj.get name ec with
           | Some c => Obj.set name {| re := Some p; wrappers := wrappers c |} ec
           | None => ec
           end
         else ec)
  end.



(** The state after the calls [evs] into the outside world. *)
Definition emit_all (evs : list event) (s : state) : state :=
  fold_left (fun s e => emit e s) evs s.

(** The event dispatcher is given each of the names, without arguments. *)
Definition fired_names (names : list string) : list event :=
  List.map (fun n => ETrigger n []) names.

(** ** The application again, for a logged-in user *)

Module Member.

Definition logged_in : start_options :=
  {| user_pushState := None; user_authed := Some true;
     user_redirectToLogin := Some true; user_root := None;
     user_debug := None |}.

(** [signup] is for logged-out users only; [loop] is an alias of itself. *)
Definition signup : route_def :=
  {| def_path := Some "/signup"; def_authed := Some false;
     def_before := TsNone; def_action := Invoke 7; def_after := TsNone;
     def_close := None |}.

Definition loop : route_def :=
  {| def_path := Some "/loop"; def_authed := None;
     def_before := TsNone; def_action := AliasTo "loop"; def_after := TsNone;
     def_close := None |}.

Definition app : state :=
  final (start Scenario.lit 8 (App true) logged_in false
           (Some ("home", []))
           (declare [("signup", signup); ("loop", loop)] Scenario.declared)).

End Member.

(** ** The application when logged-out users are sent to a login page *)

Module Guest.

Definition redirected : start_options :=
  {| user_pushState := None; user_authed := None;
     user_redirectToLogin := Some true; user_root := None;
     user_debug := None |}.

Definition app : state :=
  final (start Scenario.lit 8 (App true) redirected false
           (Some ("home", []))
           (declare [("login", Scenario.plain "/login" 5)]
              Scenario.declared)).

End Guest.

(* PROPERTIES *)

(** * Properties *)

Unset Implicit Arguments.

(** ** Objects *)

Module ObjFacts.
Section WithValue.
Variable V : Type.
Implicit Types (o : Obj.t V) (v : V).

Lemma get_set_eq k v o : Obj.get k (Obj.set k v o) = Some v.
Proof.
  induction o as [|[k' v'] r IH]; simpl.
  - now rewrite String.eqb_refl.
  - destruct (String.eqb k k') eqn:E; simpl; rewrite E; auto.
Qed.

Lemma get_set_ne k k' v o :
  k <> k' -> Obj.get k (Obj.set k' v o) = Obj.get k o.
Proof.
  intros Hne. induction o as [|[k2 v2] r IH]; simpl.
  - destruct (String.eqb k k') eqn:E; auto.
    apply String.eqb_eq in E. contradiction.
  - destruct (String.eqb k' k2) eqn:E; simpl.
    + apply String.eqb_eq in E. subst k2.
      destruct (String.eqb k k') eqn:E2; auto.
      apply String.eqb_eq in E2. contradiction.
    + destruct (String.eqb k k2); auto.
Qed.

End WithValue.
End ObjFacts.

(** ** The path parser *)

Lemma join_split (s : string) : join_slash (split_slash s) = s.
Proof.
  induction s as [|c t IH]; simpl; auto.
  destruct (Ascii.eqb c "/"%char) eqn:E.
  - apply Ascii.eqb_eq in E. subst c.
    destruct (split_slash t) as [|h r] eqn:S; simpl in *.
    + now subst t.
    + now rewrite IH.
  - destruct (split_slash t) as [|h r] eqn:S; simpl in *.
    + now subst t.
    + destruct r; simpl in *; now subst t.
Qed.






(** ** Frame and safety of the dispatch pipeline *)

Section PipelineFacts.

Variable re_test : string -> string -> bool.

Lemma exists_by_name (n : string) (s : state) :
  exists_ re_test (by_name n) s = is_route n s.
Proof.
  unfold exists_, is_route, by_name; simpl.
  destruct (truthy n); simpl; auto.
Qed.

Lemma config_allowed (s s' : state) (e : event) :
  config s' = config s -> allowed s e -> allowed s' e.
Proof.
  unfold config. intros C. inversion C as [[R ER EC CC O D Ro P H]].
  destruct e; simpl; auto.
  - unfold gate_ok. now rewrite O.
  - unfold is_route. now rewrite EC.
Qed.

Lemma steps_refl (s : state) : steps s s.
Proof.
  split; auto. exists []. split; auto using app_nil_r.
Qed.

Lemma steps_trans (s1 s2 s3 : state) :
  steps s1 s2 -> steps s2 s3 -> steps s1 s3.
Proof.
  intros [C1 [e1 [T1 F1]]] [C2 [e2 [T2 F2]]].
  split; [congruence|].
  exists (e1 ++ e2). split.
  - rewrite T2, T1. now rewrite app_assoc.
  - apply Forall_app. split; auto.
    eapply Forall_impl; [|exact F2].
    intros e. apply config_allowed. congruence.
Qed.

Lemma steps_quiet (s s' : state) :
  config s' = config s -> trace s' = trace s -> steps s s'.
Proof.
  intros C T. split; auto. exists []. rewrite app_nil_r. auto.
Qed.

Lemma steps_emit (s : state) (e : event) :
  allowed s e -> steps s (emit e s).
Proof.
  intros A. split; auto. exists [e]. split; auto.
Qed.

Lemma steps_bind {A B} (m : M A) (k : A -> M B) (s : state) :
  steps s (final (m s)) ->
  (forall a s', m s = Ret a s' -> steps s' (final (k a s'))) ->
  steps s (final (bind m k s)).
Proof.
  intros Hm Hk. unfold bind. destruct (m s) as [a s'| s' | s'] eqn:E;
    simpl in *; auto.
  eapply steps_trans; eauto.
Qed.

Lemma sound_bind {A B} (m : M A) (k : A -> M B) :
  sound m -> (forall a, sound (k a)) -> sound (bind m k).
Proof.
  intros Hm Hk s. apply steps_bind; auto. intros a s' _. apply Hk.
Qed.

Lemma sound_ret {A} (a : A) : sound (ret a).
Proof. intros s. apply steps_refl. Qed.

Lemma sound_log : sound log.
Proof. intros s. unfold log. destruct (this_options s); apply steps_refl. Qed.

Lemma sound_modify (f : state -> state) :
  (forall s, config (f s) = config s /\ trace (f s) = trace s) ->
  sound (modify f).
Proof. intros H s. simpl. apply steps_quiet; apply H. Qed.

Lemma sound_storeCurrentRoute : sound storeCurrentRoute.
Proof.
  intros s. unfold storeCurrentRoute.
  destruct (this_options s) eqn:O; [|apply steps_refl].
  apply sound_bind; [apply sound_log|]. intros _.
  apply sound_modify. now intros s0.
Qed.

Lemma sound_findCachedTrigger n a c : sound (findCachedTrigger n a c).
Proof.
  intros s. unfold findCachedTrigger.
  destruct (find_cached n (cachedTriggers s)); [apply steps_refl|].
  match goal with
  | |- context [find_cached n ?l] => destruct (find_cached n l)
  end; simpl; now apply steps_quiet.
Qed.

Lemma sound_forEach {A} (l : list A) (f : A -> M unit) :
  (forall x, sound (f x)) -> sound (forEach l f).
Proof.
  intros H. induction l as [|x r IH]; simpl.
  - apply sound_ret.
  - apply sound_bind; auto.
Qed.

Lemma steps_dispatch (name : string) (args : list value) (s : state) :
  is_route name s = false -> steps s (final (dispatch name args s)).
Proof.
  intros H. unfold dispatch. destruct (dispatcher s); simpl.
  - now apply steps_emit.
  - apply steps_refl.
Qed.

Section OverPc.

Variable pc : string -> jsargs -> bool -> M unit.
Hypothesis sound_pc : forall n a t, sound (pc n a t).

Lemma sound_processTrigger (t : trigger) :
  sound (processTrigger re_test pc t).
Proof.
  assert (R : forall name args s,
             steps s (final ((fun s => if exists_ re_test (by_name name) s
                                       then pc name (args_or_null args) true s
                                       else dispatch name (wrapped_args args) s)
                               s))).
  { intros name args s. simpl. rewrite exists_by_name.
    destruct (is_route name s) eqn:E; [apply sound_pc|].
    now apply steps_dispatch. }
  destruct t as [name|name args cache]; simpl.
  - intros s. rewrite exists_by_name.
    destruct (is_route name s) eqn:E; [apply sound_pc|].
    now apply steps_dispatch.
  - destruct cache; [|intros s; apply R].
    intros s. apply steps_bind; [apply sound_findCachedTrigger|].
    intros i s' _. destruct (cache_done i s').
    + apply sound_bind; [apply sound_log|]. intros _. apply sound_ret.
    + eapply steps_trans; [|apply R]. now apply steps_quiet.
Qed.

Lemma sound_processTriggers (ts : triggers) :
  sound (processTriggers re_test pc ts).
Proof.
  destruct ts; simpl.
  - apply sound_log.
  - apply sound_processTrigger.
  - apply sound_forEach. apply sound_processTrigger.
Qed.

Lemma sound_triggers_unless_empty (ts : triggers) :
  sound (if isEmpty ts then ret tt else processTriggers re_test pc ts).
Proof.
  destruct (isEmpty ts); [apply sound_ret|apply sound_processTriggers].
Qed.

Lemma sound_gate_failure (o : options) : sound (gate_failure pc o).
Proof.
  unfold gate_failure. apply sound_bind; [|intros; apply sound_ret].
  destruct (redirectToLogin o && negb (authed o)).
  - apply sound_bind; [apply sound_log|]. intros _.
    apply sound_bind; [apply sound_storeCurrentRoute|]. intros _.
    apply sound_pc.
  - apply sound_bind; [apply sound_log|]. intros _ s. apply sound_pc.
Qed.

Lemma steps_run_route (w : wrapper) (args : list value) (s : state) :
  match def_authed (def w) with
  | Some required =>
      exists o, this_options s = Some o /\ gate_fails required o = false
  | None => True
  end ->
  steps s (final (run_route re_test pc w args s)).
Proof.
  intros G. unfold run_route.
  assert (Hplain :
    steps s (final
      ((log ;;
        (if isEmpty (def_before (def w)) then ret tt
         else processTriggers re_test pc (def_before (def w))) ;;
        match def_action (def w) with
        | Invoke _ => modify (emit (EAction w args))
        | _ => ret tt
        end ;;
        (if isEmpty (def_after (def w)) then ret tt
         else processTriggers re_test pc (def_after (def w))) ;;
        ret VUndefined) s))).
  { apply steps_bind; [apply sound_log|]. intros u s1 L.
    assert (s1 = s /\ exists o, this_options s = Some o) as [E1 [o O]].
    { unfold log in L. destruct (this_options s) eqn:O; inversion L; eauto. }
    subst s1. clear L.
    apply steps_bind; [apply sound_triggers_unless_empty|].
    intros u2 s2 B.
    pose proof (sound_triggers_unless_empty (def_before (def w)) s) as S2.
    rewrite B in S2. simpl in S2.
    apply steps_bind.
    - destruct (def_action (def w)) eqn:Act; try apply steps_refl.
      simpl. apply steps_emit.
      apply config_allowed with (s := s); [apply S2|].
      simpl. split; [|rewrite Act; eauto]. exists o. split; auto.
      destruct (def_authed (def w)); auto.
      destruct G as [o' [O' G]]. congruence.
    - intros _ s3 _.
      apply sound_bind; [apply sound_triggers_unless_empty|].
      intros _. apply sound_ret. }
  destruct (def_action (def w)) eqn:A; try exact Hplain.
  apply sound_bind; [apply sound_log|]. intros _.
  apply sound_bind; [apply sound_pc|]. intros _. apply sound_ret.
Qed.

Lemma sound_controllerWrapper (w : wrapper) (args : list value)
    (trigger : bool) :
  sound (controllerWrapper re_test pc w args trigger).
Proof.
  unfold controllerWrapper. intros s. apply steps_bind.
  - destruct trigger; [apply sound_ret|]. apply sound_modify. now intros s0.
  - intros _ s' _. destruct (def_authed (def w)) as [required|] eqn:A.
    + destruct (this_options s') as [o|] eqn:O; [|apply steps_refl].
      destruct (gate_fails required o) eqn:G.
      * apply sound_gate_failure.
      * apply steps_run_route. rewrite A. eauto.
    + apply steps_run_route. now rewrite A.
Qed.

End OverPc.

Lemma sound_processControllers (fuel : nat) :
  forall name args trigger,
    sound (processControllers re_test fuel name args trigger).
Proof.
  induction fuel as [|fuel IH]; intros name args trigger s; simpl.
  - apply steps_refl.
  - destruct (Obj.get name (extendedController s)); [|apply steps_refl].
    apply sound_forEach. intros w.
    apply sound_bind; [|intros; apply sound_ret].
    now apply sound_controllerWrapper.
Qed.

End PipelineFacts.

(** When [args] is shorter than what the template asks for, the parameter
    read past its end is [undefined], which [join] prints as nothing. *)
Example parse_with_too_few_args :
  parse "/user/:id/:tab" (AArr [VNum 42]) = "/user/42/".
Proof. reflexivity. Qed.

(** ** The trigger cache *)

Lemma find_cached_bound n l i : find_cached n l = Some i -> i < length l.
Proof.
  revert i. induction l as [|c r IH]; intros i H; simpl in *; try discriminate.
  destruct (String.eqb (cached_name c) n).
  - inversion H. lia.
  - destruct (find_cached n r); try discriminate.
    inversion H. specialize (IH _ eq_refl). lia.
Qed.

Lemma find_cached_app_new n l c :
  find_cached n l = None -> cached_name c = n ->
  find_cached n (l ++ [c]) = Some (length l).
Proof.
  intros H E. induction l as [|c0 r IH]; simpl in *.
  - now rewrite E, String.eqb_refl.
  - destruct (String.eqb (cached_name c0) n); try discriminate.
    destruct (find_cached n r); try discriminate.
    now rewrite IH.
Qed.

Lemma find_cached_mark n i l :
  find_cached n (mark_done i l) = find_cached n l.
Proof.
  revert i. induction l as [|c r IH]; intros i; simpl; auto.
  destruct i; simpl; auto. now rewrite IH.
Qed.

Lemma nth_error_mark i l c :
  nth_error l i = Some c ->
  exists c', nth_error (mark_done i l) i = Some c' /\ done c' = true.
Proof.
  revert i. induction l as [|c0 r IH]; intros [|i] H; simpl in *;
    try discriminate; eauto.
Qed.

Lemma findCachedTrigger_returns n a c s :
  exists i s1,
    findCachedTrigger n a c s = Ret i s1 /\
    find_cached n (cachedTriggers s1) = Some i /\
    config s1 = config s /\ trace s1 = trace s /\
    currentRoutes s1 = currentRoutes s /\
    (find_cached n (cachedTriggers s) = Some i -> s1 = s) /\
    (find_cached n (cachedTriggers s) = None -> cache_done i s1 = false).
Proof.
  unfold findCachedTrigger.
  destruct (find_cached n (cachedTriggers s)) as [i|] eqn:F.
  - exists i, s. repeat split; auto. discriminate.
  - simpl.
    rewrite (@find_cached_app_new n _
               {| cached_name := n; cached_args := a; cached_cache := c;
                  done := false |} F eq_refl).
    eexists _, _. repeat split; auto; try discriminate.
    + simpl. now apply find_cached_app_new.
    + intros _. unfold cache_done. simpl.
      rewrite nth_error_app2, Nat.sub_diag; auto.
Qed.

Lemma fired_cache_mark n a s : fired n (cache_mark n a s) = true.
Proof.
  unfold cache_mark.
  destruct (findCachedTrigger_returns n a true s)
    as [i [s1 [E [F _]]]].
  rewrite E. unfold fired, cache_done. simpl.
  rewrite find_cached_mark, F.
  pose proof (find_cached_bound _ _ _ F) as B.
  destruct (nth_error (cachedTriggers s1) i) as [c|] eqn:N.
  - destruct (nth_error_mark _ _ _ N) as [c' [N' D]]. now rewrite N'.
  - apply nth_error_None in N. lia.
Qed.

Lemma cache_mark_frame n a s :
  config (cache_mark n a s) = config s /\
  trace (cache_mark n a s) = trace s /\
  currentRoutes (cache_mark n a s) = currentRoutes s.
Proof.
  unfold cache_mark.
  destruct (findCachedTrigger_returns n a true s)
    as [i [s1 [E [_ [C [T [R _]]]]]]].
  rewrite E. simpl. unfold config in *. simpl. auto.
Qed.

(** A marked trigger whose record is not done yet: the record is marked
    and the rest of [processTrigger] runs. *)
Lemma cached_trigger_first re_test pc n a s :
  fired n s = false ->
  processTrigger re_test pc (TObj n a true) s =
  (if is_route n s then pc n (args_or_null a) true (cache_mark n a s)
   else dispatch n (wrapped_args a) (cache_mark n a s)).
Proof.
  intros NF. simpl. unfold bind, cache_mark.
  destruct (findCachedTrigger_returns n a true s)
    as [i [s1 [E [F [C [_ [_ [Same New]]]]]]]].
  rewrite E.
  assert (D : cache_done i s1 = false).
  { unfold fired in NF.
    destruct (find_cached n (cachedTriggers s)) as [j|] eqn:F0; auto.
    assert (s1 = s /\ j = i) as [-> ->].
    { unfold findCachedTrigger in E. rewrite F0 in E. now inversion E. }
    exact NF. }
  rewrite D, exists_by_name.
  assert (R : is_route n
                (set_cachedTriggers (mark_done i (cachedTriggers s1)) s1)
              = is_route n s).
  { unfold is_route. simpl. unfold config in C. now inversion C. }
  now rewrite R.
Qed.

(** A marked trigger whose record is done: nothing but the log call. *)
Lemma cached_trigger_again re_test pc n a s :
  fired n s = true ->
  processTrigger re_test pc (TObj n a true) s = (log ;; ret tt) s.
Proof.
  intros Fd. simpl. unfold bind at 1.
  unfold fired in Fd.
  destruct (find_cached n (cachedTriggers s)) as [i|] eqn:F; try discriminate.
  unfold findCachedTrigger. rewrite F. now rewrite Fd.
Qed.

(** ** The auth gate, aliases and triggers that name a route *)

Lemma steps_new_event (s s' : state) (e : event) :
  steps s s' -> In e (trace s') -> In e (trace s) \/ allowed s e.
Proof.
  intros [_ [evs [T F]]] I. rewrite T in I. apply in_app_or in I.
  destruct I as [I|I]; auto. right.
  rewrite Forall_forall in F. auto.
Qed.

Lemma pushed_options trigger w s :
  this_options (pushed trigger w s) = this_options s.
Proof. now destruct trigger. Qed.

Lemma wrapper_start re_test pc w args trigger s :
  controllerWrapper re_test pc w args trigger s =
  match def_authed (def w) with
  | Some required =>
      match this_options s with
      | None => TypeError (pushed trigger w s)
      | Some o =>
          if gate_fails required o then gate_failure pc o (pushed trigger w s)
          else run_route re_test pc w args (pushed trigger w s)
      end
  | None => run_route re_test pc w args (pushed trigger w s)
  end.
Proof.
  unfold controllerWrapper, bind.
  destruct trigger; simpl; destruct (def_authed (def w)); auto.
Qed.

Lemma bind_assoc {A B C} (m : M A) (k : A -> M B) (h : B -> M C) s :
  bind (bind m k) h s = bind m (fun a => bind (k a) h) s.
Proof. unfold bind. now destruct (m s). Qed.

Lemma log_bind {A} (k : unit -> M A) s o :
  this_options s = Some o -> bind log k s = k tt s.
Proof. intros O. unfold bind, log. now rewrite O. Qed.

(** C4: a wrapper of a route with [authed: true], called while
    [options.authed] is false, pushes its name (unless called for a
    trigger) and then does nothing but hand the [login] route (when
    [redirectToLogin] is set, after storing the current path) or else the
    [403] route, with the current raw path as only argument, to
    [processControllers] once, and return [false]: its triggers are not
    processed, and its action is not called, neither by this call nor by
    anything the call leads to. *)
Theorem authed_route_short_circuits
    (re_test : string -> string -> bool) (fuel : nat) (w : wrapper)
    (args : list value) (trigger : bool) (s : state) (o : options) :
  def_authed (def w) = Some true ->
  this_options s = Some o ->
  authed o = false ->
  let pc := processControllers re_test fuel in
  controllerWrapper re_test pc w args trigger s =
    (if redirectToLogin o
     then (storeCurrentRoute ;; pc "login" AUndefined false ;;
           ret (VBool false)) (pushed trigger w s)
     else (pc "403" (AArr [VStr (raw_path o s)]) false ;;
           ret (VBool false)) (pushed trigger w s))
  /\ forall a, In (EAction w a)
                 (trace (final (controllerWrapper re_test pc w args trigger s)))
               -> In (EAction w a) (trace s).
Proof.
  intros A O U pc. split.
  - rewrite wrapper_start, A, O. unfold gate_fails. rewrite U. simpl.
    unfold gate_failure. rewrite U, andb_true_r.
    pose proof (pushed_options trigger w s) as O'. rewrite O in O'.
    destruct (redirectToLogin o).
    + rewrite bind_assoc, log_bind with (o := o) by exact O'. cbv beta.
      now rewrite bind_assoc.
    + rewrite bind_assoc, log_bind with (o := o) by exact O'.
      unfold bind.
      replace (raw_path o (pushed trigger w s)) with (raw_path o s)
        by now destruct trigger.
      reflexivity.
  - intros a I.
    pose proof (@sound_controllerWrapper re_test pc
                  (sound_processControllers re_test fuel) w args trigger s)
      as St.
    destruct (steps_new_event _ _ _ St I) as [|[[o' [O' G]] _]]; auto.
    rewrite A in G. rewrite O in O'. inversion O'; subst o'.
    unfold gate_fails in G. rewrite U in G. discriminate.
Qed.

Lemma authed_route_short_circuits_witness :
  def_authed (def Scenario.admin_w) = Some true /\
  this_options Scenario.app = Some defaultOptions /\
  authed defaultOptions = false /\
  controllerWrapper Scenario.lit (processControllers Scenario.lit 4)
    Scenario.admin_w [] false Scenario.app =
  (processControllers Scenario.lit 4 "403" (AArr [VStr "home"]) false ;;
   ret (VBool false)) (pushed false Scenario.admin_w Scenario.app).
Proof.
  split; [reflexivity|]. split; [reflexivity|]. split; [reflexivity|].
  exact (proj1 (authed_route_short_circuits Scenario.lit 4 Scenario.admin_w
                  [] false Scenario.app defaultOptions
                  eq_refl eq_refl eq_refl)).
Defined.

(** C6, as stated, fails for an alias that has an [authed] requirement of
    its own: the wrapper of [old], an alias of [home] for logged-in users,
    called for a logged-out user, runs the [403] route and never reaches
    [home]. *)
Lemma gated_alias_does_not_delegate :
  def_action (def Scenario.old_w) = AliasTo "home" /\
  trace (final (controllerWrapper Scenario.lit
                  (processControllers Scenario.lit 4)
                  Scenario.old_w [] false Scenario.app))
    = trace Scenario.app ++ [EAction Scenario.forbidden_w [VStr "home"]] /\
  trace (final ((processControllers Scenario.lit 4 "home" (AArr []) true ;;
                 ret (VBool false))
                  (pushed false Scenario.old_w Scenario.app)))
    = trace Scenario.app ++ [EAction Scenario.home_w []] /\
  controllerWrapper Scenario.lit (processControllers Scenario.lit 4)
    Scenario.old_w [] false Scenario.app
  <> (processControllers Scenario.lit 4 "home" (AArr []) true ;;
      ret (VBool false)) (pushed false Scenario.old_w Scenario.app).
Proof.
  split; [reflexivity|].
  split; [vm_compute; reflexivity|]. split; [vm_compute; reflexivity|].
  intros H. apply (f_equal (fun o => trace (final o))) in H.
  vm_compute in H. discriminate H.
Qed.

(** C6 (amended): once the options are set, the wrapper of an alias whose
    own [authed] requirement is unset or agrees with [options.authed]
    pushes its name (unless called for a trigger) and then does nothing
    but hand the target route, with the same arguments and marked as a
    trigger, to [processControllers], and return [false]: its own triggers
    are not processed and it has no action of its own to call.  What runs
    is the target's chain with its own auth checks: every action called
    belongs to a wrapper that passes its own check. *)
Theorem alias_delegates_to_target
    (re_test : string -> string -> bool) (fuel : nat) (w : wrapper)
    (target : string) (args : list value) (trigger : bool) (s : state)
    (o : options) :
  def_action (def w) = AliasTo target ->
  this_options s = Some o ->
  match def_authed (def w) with
  | Some required => gate_fails required o = false
  | None => True
  end ->
  let pc := processControllers re_test fuel in
  controllerWrapper re_test pc w args trigger s =
    (pc target (AArr args) true ;; ret (VBool false)) (pushed trigger w s)
  /\ (forall a, In (EAction w a)
                  (trace (final (controllerWrapper re_test pc w args trigger s)))
                -> In (EAction w a) (trace s))
  /\ (forall w' a, In (EAction w' a)
                     (trace (final (controllerWrapper re_test pc w args
                                      trigger s)))
                   -> In (EAction w' a) (trace s) \/ gate_ok w' s).
Proof.
  intros A O G pc.
  pose proof (sound_controllerWrapper re_test pc
                (sound_processControllers re_test fuel) w args trigger s)
    as St.
  pose proof (pushed_options trigger w s) as O'. rewrite O in O'.
  split; [|split].
  - rewrite wrapper_start, O.
    assert (R : run_route re_test pc w args (pushed trigger w s) =
                (pc target (AArr args) true ;; ret (VBool false))
                  (pushed trigger w s)).
    { unfold run_route. rewrite A.
      now rewrite log_bind with (o := o) by exact O'. }
    destruct (def_authed (def w)); [rewrite G|]; exact R.
  - intros a I.
    destruct (steps_new_event _ _ _ St I) as [|[_ [f F]]]; auto.
    rewrite A in F. discriminate.
  - intros w' a I.
    destruct (steps_new_event _ _ _ St I) as [|[Gk _]]; auto.
Qed.

Lemma alias_delegates_to_target_witness :
  def_action (def (wrapper_of "start"
                     (Scenario.alias "/" None "home"))) = AliasTo "home" /\
  this_options Scenario.app = Some defaultOptions /\
  controllerWrapper Scenario.lit (processControllers Scenario.lit 4)
    (wrapper_of "start" (Scenario.alias "/" None "home"))
    [] false Scenario.app =
  (processControllers Scenario.lit 4 "home" (AArr []) true ;;
   ret (VBool false))
    (pushed false (wrapper_of "start"
                     (Scenario.alias "/" None "home")) Scenario.app).
Proof.
  split; [reflexivity|]. split; [reflexivity|].
  exact (proj1 (alias_delegates_to_target Scenario.lit 4
                  (wrapper_of "start"
                     (Scenario.alias "/" None "home"))
                  "home" [] false Scenario.app defaultOptions
                  eq_refl eq_refl I)).
Defined.

(** C3, as stated, fails for a cache-marked trigger whose record is done:
    [processTrigger] looks at the cache before it looks for a route, so
    the trigger [{name: "home", cache: true}], processed a second time,
    is skipped although [home] is a route; its chain is not run. *)
Lemma cached_route_trigger_is_skipped :
  exists_ Scenario.lit (by_name "home") Scenario.app_fired = true /\
  fired "home" Scenario.app_fired = true /\
  processTrigger Scenario.lit (processControllers Scenario.lit 4)
    (TObj "home" None true) Scenario.app_fired = Ret tt Scenario.app_fired /\
  trace (final (processControllers Scenario.lit 4 "home" ANull true
                  Scenario.app_fired))
    = trace Scenario.app_fired ++ [EAction Scenario.home_w []].
Proof. repeat split; vm_compute; reflexivity. Qed.

(** C3 (amended): when a trigger names an existing route, a bare name, an
    object that is not cache-marked, and a cache-marked object whose record
    is not done yet (the record is marked first) hand that route to
    [processControllers], marked as a trigger so that its wrappers do not
    push on [currentRoutes], and do nothing else; a cache-marked object
    whose record is done is skipped, route or not.  In no case is the name
    given to the event dispatcher. *)
Theorem route_trigger_runs_chain
    (re_test : string -> string -> bool) (fuel : nat) (name : string)
    (s : state) :
  exists_ re_test (by_name name) s = true ->
  let pc := processControllers re_test fuel in
  processTrigger re_test pc (TStr name) s = pc name ANull true s
  /\ (forall args,
        processTrigger re_test pc (TObj name args false) s
        = pc name (args_or_null args) true s)
  /\ (forall args,
        fired name s = false ->
        processTrigger re_test pc (TObj name args true) s
        = pc name (args_or_null args) true (cache_mark name args s))
  /\ (forall args,
        fired name s = true ->
        final (processTrigger re_test pc (TObj name args true) s) = s)
  /\ (forall t a,
        trigger_name t = name ->
        In (ETrigger name a)
           (trace (final (processTrigger re_test pc t s))) ->
        In (ETrigger name a) (trace s)).
Proof.
  intros E pc. pose proof E as R. rewrite exists_by_name in R.
  repeat split.
  - simpl. now rewrite E.
  - intros args. simpl. now rewrite E.
  - intros args NF. rewrite cached_trigger_first by exact NF. now rewrite R.
  - intros args F. rewrite cached_trigger_again by exact F.
    unfold bind, log. now destruct (this_options s).
  - intros t a _ I.
    pose proof (sound_processTrigger re_test pc
                  (sound_processControllers re_test fuel) t s) as St.
    destruct (steps_new_event _ _ _ St I) as [|Al]; auto.
    simpl in Al. congruence.
Qed.

Lemma route_trigger_runs_chain_witness :
  exists_ Scenario.lit (by_name "home") Scenario.app = true /\
  processTrigger Scenario.lit (processControllers Scenario.lit 4)
    (TStr "home") Scenario.app
  = processControllers Scenario.lit 4 "home" ANull true Scenario.app.
Proof.
  split; [reflexivity|].
  exact (proj1 (route_trigger_runs_chain Scenario.lit 4 "home" Scenario.app
                  eq_refl)).
Defined.

(** ** One-shot triggers *)

Lemma count_fired_app n l1 l2 :
  count_fired n (l1 ++ l2) = count_fired n l1 + count_fired n l2.
Proof. unfold count_fired. now rewrite filter_app, length_app. Qed.

Lemma steps_is_route n s s' : steps s s' -> is_route n s' = is_route n s.
Proof.
  intros [C _]. unfold config in C. inversion C as [[R ER EC CC O D Ro P H]].
  unfold is_route. now rewrite EC.
Qed.

Lemma steps_count_route n s s' :
  is_route n s = true -> steps s s' ->
  count_fired n (trace s') = count_fired n (trace s).
Proof.
  intros R [_ [evs [T F]]]. rewrite T, count_fired_app.
  assert (Z : count_fired n evs = 0); [|lia].
  clear T. unfold count_fired. induction F as [|e l A F IH]; simpl; auto.
  destruct e as [w a|m a|r m a o|q t p|q r]; simpl in *; auto;
    try contradiction.
  destruct (String.eqb m n) eqn:E; auto.
  apply String.eqb_eq in E. subst m. congruence.
Qed.

Lemma process_all_route re_test fuel n ts :
  forall s, is_route n s = true ->
            count_fired n (trace (process_all re_test fuel ts s))
            = count_fired n (trace s).
Proof.
  induction ts as [|t r IH]; intros s R; simpl; auto.
  pose proof (sound_processTrigger re_test _
                (sound_processControllers re_test fuel) t s) as St.
  rewrite IH.
  - now apply steps_count_route.
  - now rewrite (steps_is_route _ _ _ St).
Qed.

Lemma process_all_fired re_test fuel n ts :
  forall s, Forall (cache_marked n) ts -> fired n s = true ->
            process_all re_test fuel ts s = s.
Proof.
  induction ts as [|t r IH]; intros s M F; simpl; auto.
  inversion M as [|t' r' [args ->] M']; subst.
  rewrite cached_trigger_again by exact F.
  replace (final ((log ;; ret tt) s)) with s; auto.
  unfold bind, log. now destruct (this_options s).
Qed.

Lemma dispatch_after_mark n a s :
  let s' := final (dispatch n (wrapped_args a) (cache_mark n a s)) in
  fired n s' = true /\
  count_fired n (trace s')
  = count_fired n (trace s) + (if dispatcher s then 1 else 0).
Proof.
  destruct (cache_mark_frame n a s) as [C [T _]].
  pose proof (fired_cache_mark n a s) as Fd.
  assert (D : dispatcher (cache_mark n a s) = dispatcher s).
  { unfold config in C. now inversion C. }
  unfold dispatch. rewrite D. destruct (dispatcher s); simpl.
  - split; auto. rewrite T, count_fired_app. unfold count_fired at 2.
    simpl. now rewrite String.eqb_refl.
  - split; auto. rewrite T. lia.
Qed.

(** C5: over any run of [processTrigger] calls with cache-marked triggers
    of one name, the event dispatcher is given that name at most once; and
    after [clearCache()] the next such trigger, when its name is not a
    route and a dispatcher is set, is given to the dispatcher once more. *)
Theorem cached_trigger_fires_once
    (re_test : string -> string -> bool) (fuel : nat) (n : string) :
  (forall ts s,
      Forall (cache_marked n) ts ->
      count_fired n (trace (process_all re_test fuel ts s))
      <= count_fired n (trace s) + 1)
  /\ (forall args s,
        dispatcher s = true ->
        exists_ re_test (by_name n) s = false ->
        count_fired n
          (trace (final (processTrigger re_test
                           (processControllers re_test fuel)
                           (TObj n args true) (final (clearCache s)))))
        = count_fired n (trace s) + 1).
Proof.
  split.
  - intros ts s M.
    destruct (is_route n s) eqn:R.
    { rewrite process_all_route by exact R. lia. }
    destruct ts as [|t r]; simpl; [lia|].
    inversion M as [|t' r' [args ->] M']; subst.
    destruct (fired n s) eqn:F.
    + rewrite cached_trigger_again by exact F.
      replace (final ((log ;; ret tt) s)) with s
        by (unfold bind, log; now destruct (this_options s)).
      rewrite (process_all_fired re_test fuel n r s M' F). lia.
    + rewrite cached_trigger_first by exact F. rewrite R.
      destruct (dispatch_after_mark n args s) as [Fd Cnt].
      rewrite (process_all_fired re_test fuel n r _ M' Fd).
      rewrite Cnt. destruct (dispatcher s); lia.
  - intros args s D E. rewrite exists_by_name in E.
    rewrite cached_trigger_first by reflexivity.
    replace (is_route n (final (clearCache s))) with false.
    destruct (dispatch_after_mark n args (final (clearCache s))) as [_ Cnt].
    rewrite Cnt. simpl. now rewrite D.
Qed.

Lemma cached_trigger_fires_once_witness :
  Forall (cache_marked "menu:show")
    [TObj "menu:show" None true; TObj "menu:show" (Some [VNum 1]) true;
     TObj "menu:show" None true] /\
  count_fired "menu:show"
    (trace (process_all Scenario.lit 4
              [TObj "menu:show" None true; TObj "menu:show" (Some [VNum 1]) true;
               TObj "menu:show" None true] Scenario.app))
  <= count_fired "menu:show" (trace Scenario.app) + 1.
Proof.
  assert (M : Forall (cache_marked "menu:show")
                [TObj "menu:show" None true;
                 TObj "menu:show" (Some [VNum 1]) true;
                 TObj "menu:show" None true]).
  { repeat constructor; eexists; reflexivity. }
  split; [exact M|].
  exact (proj1 (cached_trigger_fires_once Scenario.lit 4 "menu:show")
           _ Scenario.app M).
Defined.

(** ** Navigation *)

Lemma go_branches re_test fuel t args opts s :
  go re_test fuel t args opts s =
  if negb (otruthy (target_name t)) && negb (otruthy (target_path t))
  then go_missing s
  else if (otruthy (target_name t) &&
           negb (exists_ re_test
                   {| params_name := target_name t; params_path := None |} s))
          || (otruthy (target_path t) &&
              negb (exists_ re_test
                      {| params_name := None; params_path := target_path t |}
                      s))
       then go_not_found re_test fuel s
       else go_proceed (target_name t) (target_path t)
              (match t with GRoute _ _ (AArr a) => AArr a | _ => args end)
              opts s.
Proof. destruct t as [n|n [p|] a]; reflexivity. Qed.

(** C10, as stated, fails while [start] has not been called:
    [this.options] is still unset, and the log call of the branch throws a
    [TypeError] instead of [go] returning [false]. *)
Lemma go_without_target_before_start_throws :
  go Scenario.lit 4 (GName None) AUndefined Scenario.no_nav
    (init "/home" "") = TypeError (init "/home" "")
  /\ forall s', go Scenario.lit 4 (GName None) AUndefined Scenario.no_nav
                  (init "/home" "") <> Ret (VBool false) s'.
Proof. split; [reflexivity|]. intros s' H. discriminate H. Qed.

(** C10 (amended): once [start] has set the options, a call of [go] whose
    first argument gives neither a name nor a path (a falsy name; an
    object whose name is falsy and whose path is absent, empty or a lone
    slash) returns [false] and leaves the whole state as it was: no [404]
    dispatch, no close controller called, [currentRoutes] untouched. *)
Theorem go_without_target_returns_false
    (re_test : string -> string -> bool) (fuel : nat) (t : go_target)
    (args : jsargs) (opts : nav_options) (s : state) (o : options) :
  this_options s = Some o ->
  otruthy (target_name t) = false ->
  otruthy (target_path t) = false ->
  go re_test fuel t args opts s = Ret (VBool false) s.
Proof.
  intros O N P. rewrite go_branches, N, P. simpl.
  unfold go_missing, bind, log. now rewrite O.
Qed.

Lemma go_without_target_returns_false_witness :
  this_options Scenario.app = Some defaultOptions /\
  otruthy (target_name (GRoute (Some "") (Some "/") AUndefined)) = false /\
  otruthy (target_path (GRoute (Some "") (Some "/") AUndefined)) = false /\
  go Scenario.lit 4 (GRoute (Some "") (Some "/") AUndefined)
    (AArr [VNum 1]) Scenario.no_nav Scenario.app
  = Ret (VBool false) Scenario.app.
Proof.
  split; [reflexivity|]. split; [reflexivity|]. split; [reflexivity|].
  exact (go_without_target_returns_false Scenario.lit 4
           (GRoute (Some "") (Some "/") AUndefined) (AArr [VNum 1])
           Scenario.no_nav Scenario.app defaultOptions
           eq_refl eq_refl eq_refl).
Defined.




(** What the chain of [404] of the application does there: its action is
    called with the raw path, the name [404] is pushed on [currentRoutes],
    and [go] ends without a [return], so that its value is [undefined]. *)
Example go_unknown_name_in_the_application :
  exists s',
    go Scenario.lit 4 (GName (Some "nope")) AUndefined Scenario.no_nav
      Scenario.app = Ret VUndefined s' /\
    trace s' = trace Scenario.app ++ [EAction Scenario.notfound_w [VStr "home"]]
    /\ currentRoutes s' = currentRoutes Scenario.app ++ ["404"].
Proof.
  eexists. split; [vm_compute; reflexivity|].
  split; vm_compute; reflexivity.
Qed.

Lemma run_close_frame l name args opts :
  forall b s,
    currentRoutes (snd (run_close l name args opts b s)) = currentRoutes s /\
    forall e, In e (trace (snd (run_close l name args opts b s))) ->
              In e (trace s) \/ exists r, e = EClose r name args opts.
Proof.
  induction l as [|r l IH]; intros b s; simpl; auto.
  destruct (Obj.get r (closeControllers s)); auto.
  break_match; auto.
  destruct (IH (c name args opts) (emit (EClose r name args opts) s))
    as [C T].
  split; [exact C|]. intros e I. destruct (T e I) as [H|H]; auto.
  simpl in H. apply in_app_or in H. destruct H as [H|[H|[]]]; eauto.
Qed.

(** The flag after the loop over [l ++ [r]], when [r] has a close
    controller and is not the target: the answer of that controller. *)
Lemma run_close_last l r c name args opts :
  forall b s,
    Obj.get r (closeControllers s) = Some c ->
    match name with Some n => String.eqb n r | None => false end = false ->
    fst (run_close (l ++ [r]) name args opts b s) = c name args opts.
Proof.
  induction l as [|r' l IH]; intros b s G NE; simpl.
  - now rewrite G, NE.
  - destruct (Obj.get r' (closeControllers s)); auto.
    break_match; auto.
Qed.

(** A [go] that a close controller stops returns [false] with
    [currentRoutes] as it was and nothing called but close controllers. *)
Lemma go_proceed_vetoed name given args opts s s' :
  go_proceed name given args opts s = Ret (VBool false) s' ->
  fst (run_close (currentRoutes s) name args opts true s) = false /\
  currentRoutes s' = currentRoutes s /\
  forall e, In e (trace s') ->
            In e (trace s) \/ exists r, e = EClose r name args opts.
Proof.
  unfold go_proceed.
  pose proof (run_close_frame (currentRoutes s) name args opts true s) as F.
  destruct (run_close (currentRoutes s) name args opts true s) as [b s1].
  simpl in F. destruct b; simpl.
  - intros H. exfalso. revert H.
    repeat break_match; unfold bind, navigate; repeat break_match;
      intros H; inversion H.
  - intros H. inversion H; subst. destruct F. auto.
Qed.

(** C1, evaluated where the code departs from it: [list] and [detail]
    share a path and are both current; the close controller of [list]
    answers [false], the one of [detail], called after it, answers [true]
    and overwrites the flag, so [go("about")] returns [true], empties
    [currentRoutes] and navigates. *)
Theorem later_close_controller_overrides_veto :
  currentRoutes Scenario.shop = ["list"; "detail"] /\
  (exists c, Obj.get "list" (closeControllers Scenario.shop) = Some c /\
             c (Some "about") AUndefined Scenario.no_nav = false) /\
  exists s',
    go Scenario.lit 4 (GName (Some "about")) AUndefined Scenario.no_nav
      Scenario.shop = Ret (VBool true) s' /\
    currentRoutes s' = [] /\
    trace s' = trace Scenario.shop ++
               [EClose "list" (Some "about") AUndefined Scenario.no_nav;
                EClose "detail" (Some "about") AUndefined Scenario.no_nav;
                ENavigate "about" true false].
Proof.
  split; [vm_compute; reflexivity|]. split.
  - eexists. split; vm_compute; reflexivity.
  - eexists. split; [vm_compute; reflexivity|].
    split; vm_compute; reflexivity.
Qed.

(** ** The registry *)







(** ** Before [start] *)

Lemma insert_index_in {V} (n m : N) (kv x : string * V)
    (l : list (N * (string * V))) :
  In (m, x) (Obj.insert_index n kv l) -> (m, x) = (n, kv) \/ In (m, x) l.
Proof.
  induction l as [|[m' kv'] r IH]; simpl.
  - intros [H|[]]; auto.
  - destruct (n <=? m')%N; simpl.
    + intros [H|[H|H]]; auto.
    + intros [H|H]; auto. destruct (IH H); auto.
Qed.

Lemma entries_in {V} (o : Obj.t V) (x : string * V) :
  In x (Obj.entries o) -> In x o.
Proof.
  unfold Obj.entries. intros H. apply in_app_or in H. destruct H as [H|H].
  - apply in_map_iff in H. destruct H as [[m y] [E H]]. simpl in E. subst y.
    induction o as [|[k v] r IH]; simpl in *; auto.
    destruct (Obj.array_index k); auto.
    apply insert_index_in in H. destruct H as [H|H]; auto.
    inversion H; auto.
  - induction o as [|[k v] r IH]; simpl in *; auto.
    destruct (Obj.array_index k); auto.
    destruct H as [H|H]; auto.
Qed.

Lemma no_matcher_get (s : state) (n : string) (c : chain) :
  no_matcher s -> Obj.get n (extendedController s) = Some c -> re c = None.
Proof.
  unfold no_matcher. induction (extendedController s) as [|[k v] r IH];
    simpl; try discriminate.
  intros F G. inversion F; subst.
  destruct (String.eqb n k); auto. now inversion G; subst.
Qed.

Lemma no_matcher_get_list (o : Obj.t chain) (n : string) (c : chain) :
  Forall (fun kv : string * chain => re (snd kv) = None) o ->
  Obj.get n o = Some c -> re c = None.
Proof.
  induction o as [|[k v] r IH]; simpl; try discriminate.
  intros F G. inversion F; subst.
  destruct (String.eqb n k); auto. now inversion G; subst.
Qed.

Lemma no_matcher_set (o : Obj.t chain) (k : string) (c : chain) :
  Forall (fun kv : string * chain => re (snd kv) = None) o ->
  re c = None ->
  Forall (fun kv : string * chain => re (snd kv) = None) (Obj.set k c o).
Proof.
  intros F C. induction o as [|[k' v] r IH]; simpl.
  - constructor; auto.
  - inversion F; subst. destruct (String.eqb k k'); constructor; auto.
Qed.

Lemma no_matcher_config (s s' : state) :
  config s' = config s -> no_matcher s -> no_matcher s'.
Proof.
  unfold config, no_matcher.
  intros C. inversion C as [[R ER EC CC O D Ro P H]]. now rewrite EC.
Qed.

Lemma no_matcher_route (s : state) (name : string) (d : route_def) :
  no_matcher s -> no_matcher (final (route name d s)).
Proof.
  intros F. unfold route. simpl.
  repeat break_match; simpl; unfold no_matcher in *; simpl in *;
    repeat (apply no_matcher_set; simpl; auto).
  all: try (eapply no_matcher_get_list; [|eassumption];
            repeat (apply no_matcher_set; simpl; auto)).
  all: exact F.
Qed.

Lemma run_close_config l name args opts :
  forall b s, config (snd (run_close l name args opts b s)) = config s.
Proof.
  induction l as [|r l IH]; intros b s; simpl; auto.
  destruct (Obj.get r (closeControllers s)); auto.
  break_match; auto. now rewrite IH.
Qed.

Lemma steps_config_bind {A B} (m : M A) (k : A -> M B) (s : state) :
  config (final (m s)) = config s ->
  (forall a s', config (final (k a s')) = config s') ->
  config (final (bind m k s)) = config s.
Proof.
  intros Hm Hk. unfold bind.
  destruct (m s) as [a s'|s'|s'] eqn:E; simpl in *; auto.
  now rewrite Hk.
Qed.

Lemma go_config re_test fuel t args opts s :
  config (final (go re_test fuel t args opts s)) = config s.
Proof.
  rewrite go_branches. break_match; [|break_match].
  - unfold go_missing, bind, log. now destruct (this_options s).
  - unfold go_not_found.
    apply steps_config_bind; [apply sound_log|]. intros _ s1.
    apply steps_config_bind; [|reflexivity].
    destruct (this_options s1); auto.
    apply sound_processControllers.
  - unfold go_proceed.
    pose proof (run_close_config (currentRoutes s) (target_name t)
                  (match t with GRoute _ _ (AArr a) => AArr a | _ => args end)
                  opts true s) as C.
    destruct (run_close _ _ _ _ _ _) as [b s1]. simpl in C.
    destruct b; simpl; auto.
    assert (K : forall r : outcome (option string),
               final r = set_currentRoutes [] s1 ->
               config (final
                 match r with
                 | Ret (Some p) s0 =>
                     (navigate p (extend_nav opts) ;; ret (VBool true)) s0
                 | Ret None s0 => Ret (VBool true) s0
                 | TypeError s0 => TypeError s0
                 | OutOfFuel s0 => OutOfFuel s0
                 end) = config s).
    { intros r Fr. destruct r as [[p|] s0|s0|s0]; simpl in Fr; subst s0;
        simpl; auto.
      unfold bind, navigate. simpl. destruct (router s1); simpl; auto. }
    apply K. repeat break_match; reflexivity.
Qed.

Lemma unstarted_no_matcher re_test s : unstarted re_test s -> no_matcher s.
Proof.
  induction 1 as [pn h|s name d U IH|s fuel t args opts U IH|s fuel ts U IH
                 |s fuel name args trigger U IH|s U IH|s U IH|s U IH|s U IH].
  - constructor.
  - now apply no_matcher_route.
  - eapply no_matcher_config; [apply go_config|exact IH].
  - eapply no_matcher_config; [|exact IH].
    apply sound_processTriggers. intros n a t.
    apply sound_processControllers.
  - eapply no_matcher_config; [|exact IH]. apply sound_processControllers.
  - exact IH.
  - eapply no_matcher_config; [|exact IH]. apply sound_storeCurrentRoute.
  - exact IH.
  - exact IH.
Qed.

Lemma no_matcher_exists re_test s p :
  no_matcher s -> exists_ re_test (by_path p) s = false.
Proof.
  intros F. unfold exists_, by_path. simpl.
  destruct (truthy p); auto.
  destruct (existsb _ _) eqn:E; auto.
  apply existsb_exists in E. destruct E as [[k c] [I A]].
  apply entries_in in I. unfold no_matcher in F.
  rewrite Forall_forall in F. specialize (F _ I). simpl in F.
  unfold matcher_accepts in A. simpl in A. rewrite F in A. discriminate.
Qed.

Lemma unstarted_declare re_test decls :
  forall s, unstarted re_test s -> unstarted re_test (declare decls s).
Proof.
  induction decls as [|[name d] r IH]; intros s U; simpl; auto.
  apply IH. now constructor.
Qed.

(** C9: while [start] has not been called, every chain has a null
    matcher, so [exists({path: p})] is false for every [p], also for the
    paths of declared routes, and a [go] that comes with a path takes the
    branch of a route that does not exist. *)
Theorem no_path_exists_before_start
    (re_test : string -> string -> bool) (s : state) :
  unstarted re_test s ->
  no_matcher s
  /\ (forall p, exists_ re_test (by_path p) s = false)
  /\ (forall fuel t args opts,
        otruthy (target_path t) = true ->
        go re_test fuel t args opts s = go_not_found re_test fuel s).
Proof.
  intros U. pose proof (unstarted_no_matcher re_test s U) as F.
  split; [exact F|]. split.
  - intros p. now apply no_matcher_exists.
  - intros fuel t args opts P. rewrite go_branches, P.
    rewrite andb_false_r. simpl.
    destruct (target_path t) as [p|] eqn:TP; try discriminate.
    change {| params_name := None; params_path := Some p |} with (by_path p).
    rewrite (no_matcher_exists re_test s p F). simpl.
    now rewrite orb_true_r.
Qed.

Lemma no_path_exists_before_start_witness :
  unstarted Scenario.lit Scenario.declared /\
  exists_ Scenario.lit (by_path "home") Scenario.declared = false /\
  go Scenario.lit 4 (GRoute None (Some "/home") AUndefined) AUndefined
    Scenario.no_nav Scenario.declared
  = go_not_found Scenario.lit 4 Scenario.declared.
Proof.
  assert (U : unstarted Scenario.lit Scenario.declared).
  { apply unstarted_declare. constructor. }
  split; [exact U|].
  destruct (no_path_exists_before_start Scenario.lit Scenario.declared U)
    as [_ [E G]].
  split; [apply E|]. apply G. reflexivity.
Defined.

(** Once [start] has compiled the paths, the path of a declared route is
    found. *)
Example path_exists_after_start :
  exists_ Scenario.lit (by_path "home") Scenario.app = true.
Proof. vm_compute. reflexivity. Qed.

(** ** Routes that share a path *)











(** With a first name that is the empty string the binding is replaced:
    [routes[def.path]] is then falsy. *)
Example empty_name_is_rebound :
  Obj.get "items"
    (routes (declare [("", Scenario.plain "/items" 1);
                      ("detail", Scenario.plain "/items" 2)]
               (init "/items" ""))) = Some "detail".
Proof. reflexivity. Qed.

(** * Further properties *)

(** ** What a dispatch does to the rest of the state

    The pipeline is followed once more, for any relation between states
    that is kept by its primitive steps. *)

Section PipelineRelation.

Variable re_test : string -> string -> bool.
Variable R : state -> state -> Prop.

Hypothesis R_refl : forall s, R s s.
Hypothesis R_trans : forall s1 s2 s3, R s1 s2 -> R s2 s3 -> R s1 s3.
Hypothesis R_push :
  forall s n, R s (set_currentRoutes (currentRoutes s ++ [n]) s).
Hypothesis R_emit : forall s e, R s (emit e s).
Hypothesis R_store :
  forall s o,
    this_options s = Some o ->
    redirectToLogin o && negb (authed o) = true ->
    R s (set_stored
           (Some (substring1 (if pushState o then pathname s else hash s)))
           s).
Hypothesis R_append :
  forall s n a c,
    find_cached n (cachedTriggers s) = None ->
    R s (set_cachedTriggers
           (cachedTriggers s ++
            [{| cached_name := n; cached_args := a; cached_cache := c;
                done := false |}]) s).
Hypothesis R_mark :
  forall s i, R s (set_cachedTriggers (mark_done i (cachedTriggers s)) s).

Lemma rel_bind {A B} (m : M A) (k : A -> M B) (s : state) :
  R s (final (m s)) ->
  (forall a s', m s = Ret a s' -> R s' (final (k a s'))) ->
  R s (final (bind m k s)).
Proof.
  intros Hm Hk. unfold bind.
  destruct (m s) as [a s'|s'|s'] eqn:E; simpl in *; auto.
  eapply R_trans; eauto.
Qed.

Lemma keeps_bind {A B} (m : M A) (k : A -> M B) :
  keeps R m -> (forall a, keeps R (k a)) -> keeps R (bind m k).
Proof. intros Hm Hk s. apply rel_bind; auto. intros a s' _. apply Hk. Qed.

Lemma keeps_ret {A} (a : A) : keeps R (ret a).
Proof. intros s. apply R_refl. Qed.

Lemma keeps_log : keeps R log.
Proof. intros s. unfold log. destruct (this_options s); apply R_refl. Qed.

Lemma log_state (u : unit) (s s' : state) : log s = Ret u s' -> s' = s.
Proof.
  unfold log. destruct (this_options s); intros H; now inversion H.
Qed.

Lemma keeps_forEach {A} (l : list A) (f : A -> M unit) :
  (forall x, keeps R (f x)) -> keeps R (forEach l f).
Proof.
  intros H. induction l as [|x r IH]; simpl.
  - apply keeps_ret.
  - apply keeps_bind; auto.
Qed.

Lemma keeps_findCachedTrigger n a c : keeps R (findCachedTrigger n a c).
Proof.
  intros s. unfold findCachedTrigger.
  destruct (find_cached n (cachedTriggers s)) eqn:F; [apply R_refl|].
  match goal with
  | |- context [find_cached n ?l] => destruct (find_cached n l)
  end; simpl; now apply R_append.
Qed.

Lemma keeps_dispatch name args : keeps R (dispatch name args).
Proof.
  intros s. unfold dispatch. destruct (dispatcher s); simpl; auto.
Qed.

Lemma rel_storeCurrentRoute s o :
  this_options s = Some o ->
  redirectToLogin o && negb (authed o) = true ->
  R s (final (storeCurrentRoute s)).
Proof.
  intros O C. unfold storeCurrentRoute. rewrite O.
  unfold bind, log. rewrite O. simpl. now apply R_store.
Qed.

Section OverPc.

Variable pc : string -> jsargs -> bool -> M unit.
Hypothesis keeps_pc : forall n a t, keeps R (pc n a t).

Lemma keeps_processTrigger (t : trigger) :
  keeps R (processTrigger re_test pc t).
Proof.
  assert (K : forall name args,
             keeps R (fun s => if exists_ re_test (by_name name) s
                             then pc name (args_or_null args) true s
                             else dispatch name (wrapped_args args) s)).
  { intros name args s. simpl.
    destruct (exists_ re_test (by_name name) s);
      [apply keeps_pc|apply keeps_dispatch]. }
  destruct t as [name|name args cache]; simpl.
  - intros s. destruct (exists_ re_test (by_name name) s);
      [apply keeps_pc|apply keeps_dispatch].
  - destruct cache; [|apply K].
    apply keeps_bind; [apply keeps_findCachedTrigger|].
    intros i s. destruct (cache_done i s).
    + apply keeps_bind; [apply keeps_log|]. intros _. apply keeps_ret.
    + eapply R_trans; [apply R_mark|apply K].
Qed.

Lemma keeps_processTriggers (ts : triggers) :
  keeps R (processTriggers re_test pc ts).
Proof.
  destruct ts; simpl.
  - apply keeps_log.
  - apply keeps_processTrigger.
  - apply keeps_forEach. apply keeps_processTrigger.
Qed.

Lemma keeps_triggers_unless_empty (ts : triggers) :
  keeps R (if isEmpty ts then ret tt else processTriggers re_test pc ts).
Proof.
  destruct (isEmpty ts); [apply keeps_ret|apply keeps_processTriggers].
Qed.

Lemma rel_gate_failure (o : options) (s : state) :
  this_options s = Some o -> R s (final (gate_failure pc o s)).
Proof.
  intros O. unfold gate_failure.
  apply rel_bind; [|intros; apply keeps_ret].
  destruct (redirectToLogin o && negb (authed o)) eqn:C.
  - apply rel_bind; [apply keeps_log|]. intros u s1 L.
    apply log_state in L. subst s1.
    apply rel_bind; [now apply rel_storeCurrentRoute with (o := o)|].
    intros u2 s2 _. apply keeps_pc.
  - apply rel_bind; [apply keeps_log|]. intros u s1 _. apply keeps_pc.
Qed.

Lemma keeps_run_route (w : wrapper) (args : list value) :
  keeps R (run_route re_test pc w args).
Proof.
  unfold run_route.
  assert (P : keeps R
    (log ;;
     (if isEmpty (def_before (def w)) then ret tt
      else processTriggers re_test pc (def_before (def w))) ;;
     match def_action (def w) with
     | Invoke _ => modify (emit (EAction w args))
     | _ => ret tt
     end ;;
     (if isEmpty (def_after (def w)) then ret tt
      else processTriggers re_test pc (def_after (def w))) ;;
     ret VUndefined)).
  { apply keeps_bind; [apply keeps_log|]. intros _.
    apply keeps_bind; [apply keeps_triggers_unless_empty|]. intros _.
    apply keeps_bind.
    - destruct (def_action (def w)); try apply keeps_ret.
      intros s. simpl. apply R_emit.
    - intros _. apply keeps_bind; [apply keeps_triggers_unless_empty|].
      intros _. apply keeps_ret. }
  destruct (def_action (def w)); try exact P.
  apply keeps_bind; [apply keeps_log|]. intros _.
  apply keeps_bind; [apply keeps_pc|]. intros _. apply keeps_ret.
Qed.

Lemma keeps_controllerWrapper (w : wrapper) (args : list value)
    (trigger : bool) :
  keeps R (controllerWrapper re_test pc w args trigger).
Proof.
  unfold controllerWrapper. intros s. apply rel_bind.
  - destruct trigger; [apply keeps_ret|]. simpl. apply R_push.
  - intros u s' _. destruct (def_authed (def w)) as [required|].
    + destruct (this_options s') as [o|] eqn:O; [|apply R_refl].
      destruct (gate_fails required o).
      * now apply rel_gate_failure.
      * apply keeps_run_route.
    + apply keeps_run_route.
Qed.

End OverPc.

Lemma keeps_processControllers (fuel : nat) :
  forall name args trigger,
    keeps R (processControllers re_test fuel name args trigger).
Proof.
  induction fuel as [|fuel IH]; intros name args trigger s; simpl.
  - apply R_refl.
  - destruct (Obj.get name (extendedController s)); [|apply R_refl].
    apply keeps_forEach. intros w.
    apply keeps_bind; [|intros; apply keeps_ret].
    now apply keeps_controllerWrapper.
Qed.

End PipelineRelation.

(** ** What any series of calls keeps

    The same for the whole router: a relation kept by every primitive step
    of [route], the pipeline, [go], [start] and [clearCache] holds between
    a state and every state reached from it. *)

Section RouterRelation.

Variable re_test : string -> string -> bool.
Variable R : state -> state -> Prop.

Hypothesis R_refl : forall s, R s s.
Hypothesis R_trans : forall s1 s2 s3, R s1 s2 -> R s2 s3 -> R s1 s3.
Hypothesis R_route : forall s name d, R s (final (route name d s)).
Hypothesis R_push :
  forall s n, R s (set_currentRoutes (currentRoutes s ++ [n]) s).
Hypothesis R_reset : forall s, R s (set_currentRoutes [] s).
Hypothesis R_emit : forall s e, R s (emit e s).
Hypothesis R_stored : forall s v, R s (set_stored v s).
Hypothesis R_append :
  forall s n a c,
    find_cached n (cachedTriggers s) = None ->
    R s (set_cachedTriggers
           (cachedTriggers s ++
            [{| cached_name := n; cached_args := a; cached_cache := c;
                done := false |}]) s).
Hypothesis R_mark :
  forall s i, R s (set_cachedTriggers (mark_done i (cachedTriggers s)) s).
Hypothesis R_clear : forall s, R s (set_cachedTriggers [] s).
Hypothesis R_options : forall s o, R s (set_options (Some o) s).
Hypothesis R_dispatcher : forall s, R s (set_dispatcher true s).
Hypothesis R_router : forall s, R s (set_router true s).
Hypothesis R_compile : forall s kv, R s (final (compile_route re_test kv s)).

Lemma all_processControllers fuel name args trigger :
  keeps R (processControllers re_test fuel name args trigger).
Proof.
  apply keeps_processControllers; auto.
Qed.

Lemma all_processTriggers fuel ts :
  keeps R (processTriggers re_test (processControllers re_test fuel) ts).
Proof.
  apply keeps_processTriggers; auto.
  intros n a t. apply all_processControllers.
Qed.

Lemma all_storeCurrentRoute : keeps R storeCurrentRoute.
Proof.
  intros s. unfold storeCurrentRoute.
  destruct (this_options s) eqn:O; [|apply R_refl].
  unfold bind, log. rewrite O. simpl. apply R_stored.
Qed.

Lemma all_run_close l name args opts :
  forall b s, R s (snd (run_close l name args opts b s)).
Proof.
  induction l as [|r l IH]; intros b s; simpl; auto.
  destruct (Obj.get r (closeControllers s)); auto.
  break_match; auto.
  eapply R_trans; [apply R_emit|apply IH].
Qed.

Lemma all_go fuel t args opts : keeps R (go re_test fuel t args opts).
Proof.
  intros s. rewrite go_branches. break_match; [|break_match].
  - unfold go_missing, bind, log. destruct (this_options s); apply R_refl.
  - unfold go_not_found.
    apply rel_bind; auto.
    { unfold log. destruct (this_options s); apply R_refl. }
    intros u s1 _. apply rel_bind; auto.
    destruct (this_options s1); [apply all_processControllers|apply R_refl].
  - unfold go_proceed.
    pose proof (all_run_close (currentRoutes s) (target_name t)
                  (match t with GRoute _ _ (AArr a) => AArr a | _ => args end)
                  opts true s) as C.
    destruct (run_close _ _ _ _ _ _) as [b s1]. simpl in C.
    destruct b; simpl; auto.
    eapply R_trans; [exact C|]. eapply R_trans; [apply R_reset|].
    assert (K : forall r : outcome (option string),
               final r = set_currentRoutes [] s1 ->
               R (set_currentRoutes [] s1) (final
                 match r with
                 | Ret (Some p) s0 =>
                     (navigate p (extend_nav opts) ;; ret (VBool true)) s0
                 | Ret None s0 => Ret (VBool true) s0
                 | TypeError s0 => TypeError s0
                 | OutOfFuel s0 => OutOfFuel s0
                 end)).
    { intros r Fr. destruct r as [[p|] s0|s0|s0]; simpl in Fr; subst s0;
        simpl; auto.
      unfold bind, navigate. simpl. destruct (router s1); simpl; auto. }
    apply K. repeat break_match; reflexivity.
Qed.

Lemma all_start fuel app user started loaded :
  keeps R (start re_test fuel app user started loaded).
Proof.
  assert (L : keeps R log).
  { intros s. unfold log. destruct (this_options s); apply R_refl. }
  assert (KB : forall A B (m : M A) (k : A -> M B),
             keeps R m -> (forall a, keeps R (k a)) -> keeps R (bind m k)).
  { intros A B m k. now apply keeps_bind. }
  unfold start.
  apply KB; [intros s; apply R_options|intros _].
  apply KB; [intros s; destruct (dispatcher s), app; simpl; auto|intros _].
  apply KB; [exact L|intros _].
  apply KB; [intros s; apply R_router|intros _].
  apply KB; [|intros _].
  { intros s. apply keeps_forEach; auto. intros kv s'. apply R_compile. }
  apply KB; [|intros _ s; apply R_refl].
  destruct started; [intros s; apply R_refl|].
  apply KB; [exact L|intros _].
  apply KB; [intros s; destruct (this_options s); simpl; auto|intros _].
  destruct loaded as [[name arguments]|].
  - apply KB; [apply all_processControllers|intros _ s].
    destruct (getStoredRoute s) as [r|]; [|apply R_refl].
    destruct (truthy r); [|apply R_refl].
    apply KB; [exact L|intros _].
    apply KB; [intros s'; apply R_stored|intros _].
    apply KB; [apply all_go|intros _ s'; apply R_refl].
  - apply KB; [exact L|intros _ s].
    destruct (this_options s); [apply all_processControllers|apply R_refl].
Qed.

Lemma all_after (s0 s : state) : after re_test s0 s -> R s0 s.
Proof.
  induction 1; auto; eapply R_trans; try eassumption.
  - apply R_route.
  - apply all_go.
  - apply all_processTriggers.
  - apply all_processControllers.
  - apply R_clear.
  - apply all_storeCurrentRoute.
  - apply R_stored.
  - apply all_start.
Qed.

End RouterRelation.

(** ** More on objects *)

Section ObjMore.

Variable V : Type.
Implicit Types (o : Obj.t V) (v : V) (k : string).

Lemma has_set_same k v o : has k (Obj.set k v o) = true.
Proof. unfold has. now rewrite ObjFacts.get_set_eq. Qed.

Lemma has_set_mono k k' v o :
  has k o = true -> has k (Obj.set k' v o) = true.
Proof.
  intros H. destruct (String.eqb k k') eqn:E.
  - apply String.eqb_eq in E. subst. apply has_set_same.
  - unfold has in *. rewrite ObjFacts.get_set_ne; auto.
    intros ->. now rewrite String.eqb_refl in E.
Qed.

Lemma has_set k k' v o :
  has k (Obj.set k' v o) = String.eqb k k' || has k o.
Proof.
  destruct (String.eqb k k') eqn:E; simpl.
  - apply String.eqb_eq in E. subst. apply has_set_same.
  - unfold has. rewrite ObjFacts.get_set_ne; auto.
    intros ->. now rewrite String.eqb_refl in E.
Qed.

Lemma get_in k v o : Obj.get k o = Some v -> In (k, v) o.
Proof.
  induction o as [|[k' v'] r IH]; simpl; try discriminate.
  destruct (String.eqb k k') eqn:E.
  - apply String.eqb_eq in E. subst. intros H. inversion H. auto.
  - auto.
Qed.

Lemma in_get k v o :
  NoDup (List.map fst o) -> In (k, v) o -> Obj.get k o = Some v.
Proof.
  induction o as [|[k' v'] r IH]; simpl; intros N I; [contradiction|].
  inversion N as [|x l NI N']; subst.
  destruct I as [I|I].
  - inversion I; subst. now rewrite String.eqb_refl.
  - destruct (String.eqb k k') eqn:E; auto.
    apply String.eqb_eq in E. subst k'. exfalso. apply NI.
    apply in_map_iff. exists (k, v). auto.
Qed.



Lemma set_keeps k v o (x : string * V) :
  In x o -> fst x <> k -> In x (Obj.set k v o).
Proof.
  intros I NE. induction o as [|[k' v'] r IH]; simpl in *; auto.
  destruct (String.eqb k k') eqn:E; simpl.
  - apply String.eqb_eq in E. subst k'. destruct I as [I|I]; auto.
    subst x. simpl in NE. contradiction.
  - destruct I as [I|I]; auto.
Qed.

Lemma set_keys k v o :
  List.map fst (Obj.set k v o)
  = if has k o then List.map fst o else List.map fst o ++ [k].
Proof.
  unfold has. induction o as [|[k' v'] r IH]; simpl; auto.
  destruct (String.eqb k k') eqn:E; simpl; auto.
  rewrite IH. now destruct (Obj.get k r).
Qed.

Lemma has_keys k o : has k o = true <-> In k (List.map fst o).
Proof.
  unfold has. induction o as [|[k' v'] r IH]; simpl.
  - split; [discriminate|contradiction].
  - destruct (String.eqb k k') eqn:E.
    + apply String.eqb_eq in E. subst. tauto.
    + split; [tauto|]. intros [H|H]; [|tauto].
      subst. now rewrite String.eqb_refl in E.
Qed.

Lemma set_nodup k v o :
  NoDup (List.map fst o) -> NoDup (List.map fst (Obj.set k v o)).
Proof.
  intros N. rewrite set_keys. destruct (has k o) eqn:H; auto.
  apply NoDup_app; auto.
  - repeat constructor. auto.
  - intros x I [E|[]]. subst x. apply has_keys in I. congruence.
Qed.

Lemma insert_index_has (n : N) (kv x : string * V)
    (l : list (N * (string * V))) :
  x = kv \/ In x (List.map snd l) ->
  In x (List.map snd (Obj.insert_index n kv l)).
Proof.
  induction l as [|[m kv'] r IH]; simpl.
  - intros [H|[]]; auto.
  - destruct (n <=? m)%N; simpl.
    + intros [H|[H|H]]; auto.
    + intros [H|[H|H]]; auto.
Qed.

Lemma in_entries o (x : string * V) : In x o -> In x (Obj.entries o).
Proof.
  unfold Obj.entries. intros I. apply in_or_app.
  induction o as [|[k v] r IH]; simpl in *; [contradiction|].
  destruct (Obj.array_index k) eqn:A.
  - destruct I as [I|I].
    + left. apply insert_index_has. auto.
    + destruct (IH I) as [H|H]; auto.
      left. apply insert_index_has. auto.
  - destruct I as [I|I]; [right; simpl; auto|].
    destruct (IH I) as [H|H]; auto. right. simpl. auto.
Qed.

End ObjMore.

(** ** What [route] does to the registry *)

Lemma route_frame (name : string) (d : route_def) (s : state) :
  cachedTriggers (final (route name d s)) = cachedTriggers s /\
  currentRoutes (final (route name d s)) = currentRoutes s /\
  this_options (final (route name d s)) = this_options s /\
  dispatcher (final (route name d s)) = dispatcher s /\
  router (final (route name d s)) = router s /\
  stored (final (route name d s)) = stored s /\
  trace (final (route name d s)) = trace s.
Proof.
  unfold route. simpl. repeat break_match; simpl; repeat split; reflexivity.
Qed.

Lemma route_new (name : string) (d : route_def) (s : state) :
  owner_of (key_of d) s = None ->
  route name d s = Ret tt (final (route name d s)) /\
  routes (final (route name d s))
  = match strip_path (def_path d) with
    | Some p => Obj.set p name (routes s)
    | None => routes s
    end /\
  extendedRoutes (final (route name d s))
  = Obj.set (key_of d) [name] (Obj.set (key_of d) [] (extendedRoutes s)) /\
  extendedController (final (route name d s))
  = Obj.set name {| re := None; wrappers := [wrapper_of name d] |}
      (Obj.set name {| re := None; wrappers := [] |} (extendedController s)).
Proof.
  unfold owner_of, key_of, wrapper_of. intros O. unfold route. simpl.
  rewrite O.
  destruct (strip_path (def_path d)) as [p|], (def_close d); simpl;
    rewrite !ObjFacts.get_set_eq; simpl; rewrite String.eqb_refl; simpl;
    repeat split; reflexivity.
Qed.

Lemma route_owned (name owner : string) (d : route_def) (s : state)
    (names : list string) (c : chain) :
  owner_of (key_of d) s = Some owner ->
  Obj.get (key_of d) (extendedRoutes s) = Some names ->
  Obj.get owner (extendedController s) = Some c ->
  route name d s = Ret tt (final (route name d s)) /\
  routes (final (route name d s)) = routes s /\
  extendedRoutes (final (route name d s))
  = Obj.set (key_of d) (names ++ [name]) (extendedRoutes s) /\
  extendedController (final (route name d s))
  = (if String.eqb owner name
     then Obj.set owner
            {| re := re c; wrappers := wrappers c ++ [wrapper_of name d] |}
            (extendedController s)
     else Obj.set name {| re := None; wrappers := [wrapper_of name d] |}
            (Obj.set owner
               {| re := re c;
                  wrappers := wrappers c ++ [wrapper_of name d] |}
               (extendedController s))).
Proof.
  unfold owner_of, key_of, wrapper_of. intros O ER EC. unfold route. simpl.
  rewrite O.
  destruct (def_close d); simpl; rewrite ER, EC; simpl;
    destruct (String.eqb owner name); simpl; repeat split; reflexivity.
Qed.

Lemma owner_of_some k owner s :
  owner_of k s = Some owner ->
  Obj.get k (routes s) = Some owner /\ truthy owner = true.
Proof.
  unfold owner_of. destruct (Obj.get k (routes s)) as [o|]; try discriminate.
  destruct (truthy o) eqn:T; try discriminate.
  intros H. inversion H; subst. auto.
Qed.

Lemma has_get {V} k (o : Obj.t V) :
  has k o = true -> exists v, Obj.get k o = Some v.
Proof. unfold has. destruct (Obj.get k o); eauto; discriminate. Qed.

(** On a registry that hangs together [route] returns, and the registry
    still hangs together. *)
Lemma route_registry_ok (name : string) (d : route_def) (s : state) :
  registry_ok s ->
  route name d s = Ret tt (final (route name d s)) /\
  registry_ok (final (route name d s)) /\
  has name (extendedController (final (route name d s))) = true.
Proof.
  intros [N W].
  destruct (owner_of (key_of d) s) as [owner|] eqn:O.
  - destruct (owner_of_some _ _ _ O) as [G T].
    destruct (W _ _ G T) as [HR HC].
    destruct (has_get _ _ HR) as [names ER].
    destruct (has_get _ _ HC) as [c EC].
    destruct (route_owned name owner d s names c O ER EC)
      as [E [Rs [ERs ECs]]].
    split; [exact E|]. split; [split|].
    + now rewrite Rs.
    + intros p o' G' T'. rewrite Rs in G'. destruct (W _ _ G' T') as [A B].
      rewrite ERs, ECs. split; [now apply has_set_mono|].
      destruct (String.eqb owner name); repeat apply has_set_mono; auto.
    + rewrite ECs. destruct (String.eqb owner name) eqn:En.
      * apply String.eqb_eq in En. subst. apply has_set_same.
      * apply has_set_same.
  - destruct (route_new name d s O) as [E [Rs [ERs ECs]]].
    split; [exact E|]. split; [split|].
    + rewrite Rs. destruct (strip_path (def_path d)); auto.
      now apply set_nodup.
    + intros p o' G' T'. rewrite ERs, ECs.
      assert (C : (p = key_of d /\ o' = name) \/
                  Obj.get p (routes s) = Some o').
      { rewrite Rs in G'. unfold key_of.
        destruct (strip_path (def_path d)) as [q|]; auto. simpl.
        destruct (String.eqb p q) eqn:Ep.
        - apply String.eqb_eq in Ep. subst q.
          rewrite ObjFacts.get_set_eq in G'. inversion G'. auto.
        - rewrite ObjFacts.get_set_ne in G'; auto.
          intros ->. now rewrite String.eqb_refl in Ep. }
      destruct C as [[-> ->]|G].
      * split; apply has_set_same.
      * destruct (W _ _ G T') as [A B].
        split; repeat apply has_set_mono; auto.
    + rewrite ECs. apply has_set_same.
Qed.


(** ** Invariants of the registry *)

Lemma compile_route_frame re_test kv s :
  routes (final (compile_route re_test kv s)) = routes s /\
  extendedRoutes (final (compile_route re_test kv s)) = extendedRoutes s /\
  closeControllers (final (compile_route re_test kv s)) = closeControllers s /\
  cachedTriggers (final (compile_route re_test kv s)) = cachedTriggers s /\
  this_options (final (compile_route re_test kv s)) = this_options s /\
  dispatcher (final (compile_route re_test kv s)) = dispatcher s /\
  router (final (compile_route re_test kv s)) = router s /\
  (forall k, has k (extendedController (final (compile_route re_test kv s)))
             = has k (extendedController s)).
Proof.
  destruct kv as [p name]. unfold compile_route.
  repeat break_match; simpl; repeat split; auto.
  intros k. rewrite has_set.
  destruct (String.eqb k name) eqn:E; auto.
  apply String.eqb_eq in E. subst k. unfold has.
  match goal with H : Obj.get name _ = Some _ |- _ => now rewrite H end.
Qed.

Lemma registry_ok_same (s s' : state) :
  routes s' = routes s ->
  extendedRoutes s' = extendedRoutes s ->
  (forall k, has k (extendedController s) = true ->
             has k (extendedController s') = true) ->
  registry_ok s -> registry_ok s'.
Proof.
  intros Rs ERs ECs [N W]. split; [now rewrite Rs|].
  intros p owner G T. rewrite Rs in G. destruct (W _ _ G T) as [A B].
  rewrite ERs. auto.
Qed.

Lemma after_registry_ok re_test (s0 s : state) :
  after re_test s0 s -> registry_ok s0 -> registry_ok s.
Proof.
  apply (all_after re_test (fun a b => registry_ok a -> registry_ok b));
    auto.
  - intros s1 name d H. now apply route_registry_ok.
  - intros s1 kv. destruct (compile_route_frame re_test kv s1)
      as [Rs [ERs [_ [_ [_ [_ [_ H]]]]]]].
    apply registry_ok_same; auto. intros k. now rewrite H.
Qed.

Lemma init_registry_ok pathname hash : registry_ok (init pathname hash).
Proof.
  split; [constructor|]. intros p owner G. discriminate G.
Qed.

Lemma after_trans re_test (s0 s1 s2 : state) :
  after re_test s0 s1 -> after re_test s1 s2 -> after re_test s0 s2.
Proof. intros A B. induction B; try (constructor; assumption). exact A. Qed.

Lemma after_declare re_test decls :
  forall s0 s, after re_test s0 s -> after re_test s0 (declare decls s).
Proof.
  induction decls as [|[name d] r IH]; intros s0 s A; simpl; auto.
  apply IH. now constructor.
Qed.



Lemma scenario_app_after :
  after Scenario.lit (init "/home" "") Scenario.app.
Proof.
  unfold Scenario.app. apply after_start.
  unfold Scenario.declared. apply after_declare. constructor.
Qed.




(** ** [start] *)

Lemma start_sets_dispatcher re_test fuel vent user started loaded s :
  dispatcher (final (start re_test fuel (App vent) user started loaded s))
  = true.
Proof.
  unfold start. unfold bind at 1. simpl. unfold bind at 1. simpl.
  destruct (dispatcher s) eqn:D; simpl; auto.
  match goal with
  | |- dispatcher (final (?m ?s1)) = true =>
      assert (K : keeps (fun a b => dispatcher b = dispatcher a) m);
        [|unfold keeps in K; rewrite (K s1); reflexivity]
  end.
  assert (L : forall A (m : M A),
             keeps (fun a b => config b = config a) m ->
             keeps (fun a b => dispatcher b = dispatcher a) m).
  { intros A m H s1. specialize (H s1). unfold config in H.
    now inversion H. }
  assert (KB : forall A B (m : M A) (k : A -> M B),
             keeps (fun a b => dispatcher b = dispatcher a) m ->
             (forall a, keeps (fun a b => dispatcher b = dispatcher a) (k a)) ->
             keeps (fun a b => dispatcher b = dispatcher a) (bind m k)).
  { intros A B m k. apply keeps_bind. congruence. }
  apply KB; [apply L; intros s1; apply sound_log|intros _].
  apply KB; [now intros s1|intros _].
  apply KB; [|intros _].
  { intros s1. apply keeps_forEach; [auto|congruence|].
    intros kv s2. apply compile_route_frame. }
  apply KB; [|now intros _ s1].
  destruct started; [now intros s1|].
  apply KB; [apply L; intros s1; apply sound_log|intros _].
  apply KB; [intros s1; now destruct (this_options s1)|intros _].
  destruct loaded as [[name arguments]|].
  - apply KB; [apply L; intros s1; apply sound_processControllers|].
    intros _ s1. destruct (getStoredRoute s1) as [r|]; auto.
    destruct (truthy r); auto.
    apply KB; [apply L; intros s2; apply sound_log|intros _].
    apply KB; [now intros s2|intros _].
    apply KB; [apply L; intros s2; apply go_config|now intros _ s2].
  - apply KB; [apply L; intros s1; apply sound_log|intros _ s1].
    destruct (this_options s1); auto.
    apply L. intros s2. apply sound_processControllers.
Qed.

Lemma after_dispatcher re_test (s s' : state) :
  after re_test s s' -> dispatcher s = true -> dispatcher s' = true.
Proof.
  apply (all_after re_test
           (fun a b => dispatcher a = true -> dispatcher b = true)); auto.
  - intros s1 name d. destruct (route_frame name d s1)
      as [_ [_ [_ [E _]]]]. now rewrite E.
  - intros s1 kv. destruct (compile_route_frame re_test kv s1)
      as [_ [_ [_ [_ [_ [E _]]]]]]. now rewrite E.
Qed.

(** X3: [start] gets past its first test at most once.  A call with an
    application object leaves a dispatcher set, however it ends; and once
    a dispatcher is set, by [start] or by the application itself, every
    call of [start], now or after any other calls, sets the options and
    then throws a [TypeError] (it calls [this.log], which does not exist),
    without creating the Backbone router or compiling a path. *)
Theorem start_only_once
    (re_test : string -> string -> bool) (s s' : state) :
  (forall fuel vent user started loaded,
      dispatcher (final (start re_test fuel (App vent) user started loaded s))
      = true)
  /\ (dispatcher s = true ->
      after re_test s s' ->
      forall fuel app user started loaded,
        start re_test fuel app user started loaded s'
        = TypeError (set_options (Some (extend_options user)) s')).
Proof.
  split.
  - intros. apply start_sets_dispatcher.
  - intros D A fuel app user started loaded.
    pose proof (after_dispatcher re_test s s' A D) as D'.
    unfold start. unfold bind at 1. simpl. unfold bind at 1. simpl.
    now rewrite D'.
Qed.

Lemma start_only_once_witness :
  dispatcher Scenario.app = true /\
  after Scenario.lit Scenario.app
    (final (go Scenario.lit 4 (GName (Some "admin")) AUndefined
              Scenario.no_nav Scenario.app)) /\
  start Scenario.lit 4 (App true) Scenario.no_user false None
    (final (go Scenario.lit 4 (GName (Some "admin")) AUndefined
              Scenario.no_nav Scenario.app))
  = TypeError
      (set_options (Some (extend_options Scenario.no_user))
         (final (go Scenario.lit 4 (GName (Some "admin")) AUndefined
                   Scenario.no_nav Scenario.app))).
Proof.
  assert (A : after Scenario.lit Scenario.app
                (final (go Scenario.lit 4 (GName (Some "admin")) AUndefined
                          Scenario.no_nav Scenario.app))).
  { apply after_go. constructor. }
  assert (D : dispatcher Scenario.app = true) by (vm_compute; reflexivity).
  split; [exact D|]. split; [exact A|].
  exact (proj2 (start_only_once Scenario.lit Scenario.app _) D A
           4 (App true) Scenario.no_user false None).
Defined.

(** ** The trigger cache across calls *)

Lemma find_cached_none n l :
  find_cached n l = None <-> ~ In n (List.map cached_name l).
Proof.
  induction l as [|c r IH]; simpl.
  - split; auto.
  - destruct (String.eqb (cached_name c) n) eqn:E.
    + apply String.eqb_eq in E. split; [discriminate|]. intros H.
      exfalso. auto.
    + destruct (find_cached n r); simpl.
      * split; [discriminate|]. intros H. exfalso. apply H. right.
        destruct IH as [_ IH]. destruct (in_dec string_dec n
          (List.map cached_name r)) as [I|I]; auto.
        specialize (IH I). discriminate.
      * split; auto. intros _ [H|H].
        -- subst. now rewrite String.eqb_refl in E.
        -- now apply IH.
Qed.

Lemma names_mark i l :
  List.map cached_name (mark_done i l) = List.map cached_name l.
Proof.
  revert i. induction l as [|c r IH]; intros i; simpl; auto.
  destruct i; simpl; auto. now rewrite IH.
Qed.

Lemma find_cached_app n l c i :
  find_cached n l = Some i -> find_cached n (l ++ [c]) = Some i.
Proof.
  revert i. induction l as [|c0 r IH]; intros i; simpl; try discriminate.
  destruct (String.eqb (cached_name c0) n); auto.
  destruct (find_cached n r); try discriminate.
  intros H. now rewrite (IH n0 eq_refl).
Qed.

Lemma done_mark i j l c :
  nth_error l i = Some c -> done c = true ->
  exists c', nth_error (mark_done j l) i = Some c' /\ done c' = true.
Proof.
  revert i j. induction l as [|c0 r IH]; intros [|i] [|j] N D; simpl in *;
    try discriminate; eauto.
Qed.

Lemma fired_inv n s :
  fired n s = true ->
  exists i c, find_cached n (cachedTriggers s) = Some i /\
              nth_error (cachedTriggers s) i = Some c /\ done c = true.
Proof.
  unfold fired, cache_done. intros H.
  destruct (find_cached n (cachedTriggers s)) as [i|] eqn:F;
    [|discriminate H].
  destruct (nth_error (cachedTriggers s) i) as [c|] eqn:E;
    [|discriminate H].
  exists i, c. repeat split; auto.
Qed.

Lemma cache_grows_same (s s' : state) :
  cachedTriggers s' = cachedTriggers s -> cache_grows s s'.
Proof.
  intros E. unfold cache_grows, cached_names, fired, cache_done.
  now rewrite E.
Qed.

Lemma cache_grows_trans (s1 s2 s3 : state) :
  cache_grows s1 s2 -> cache_grows s2 s3 -> cache_grows s1 s3.
Proof. intros [A B] [C D]. split; auto. Qed.

Lemma cache_grows_append s n a c :
  find_cached n (cachedTriggers s) = None ->
  cache_grows s
    (set_cachedTriggers
       (cachedTriggers s ++
        [{| cached_name := n; cached_args := a; cached_cache := c;
            done := false |}]) s).
Proof.
  intros F. split.
  - unfold cached_names. simpl. rewrite map_app. simpl. intros N.
    apply NoDup_app; auto.
    + repeat constructor. auto.
    + intros x I [E|[]]. subst x. now apply find_cached_none in F.
  - intros m Fd. destruct (fired_inv m s Fd) as [i [c0 [Fi [Ni D]]]].
    unfold fired, cache_done. simpl.
    rewrite (find_cached_app _ _ _ _ Fi).
    rewrite nth_error_app1, Ni; auto.
    apply nth_error_Some. congruence.
Qed.

Lemma cache_grows_mark s i :
  cache_grows s (set_cachedTriggers (mark_done i (cachedTriggers s)) s).
Proof.
  split.
  - unfold cached_names. simpl. now rewrite names_mark.
  - intros m Fd. destruct (fired_inv m s Fd) as [j [c0 [Fi [Ni D]]]].
    unfold fired, cache_done. simpl. rewrite find_cached_mark, Fi.
    destruct (done_mark j i _ _ Ni D) as [c' [N' D']]. now rewrite N'.
Qed.

(** X4: a cached trigger that has fired stays fired: the record of its
    name is still marked done after any dispatch, any processing of
    triggers, any [go] and any [start]. *)
Theorem fired_stays_fired
    (re_test : string -> string -> bool) (n : string) (s : state) :
  fired n s = true ->
  (forall fuel name args trigger,
      fired n (final (processControllers re_test fuel name args trigger s))
      = true)
  /\ (forall fuel ts,
        fired n (final (processTriggers re_test
                          (processControllers re_test fuel) ts s)) = true)
  /\ (forall fuel t args opts,
        fired n (final (go re_test fuel t args opts s)) = true)
  /\ (forall fuel app user started loaded,
        fired n (final (start re_test fuel app user started loaded s))
        = true).
Proof.
  intros F.
  assert (Same : forall s1 s2, cachedTriggers s2 = cachedTriggers s1 ->
                               cache_grows s1 s2)
    by exact cache_grows_same.
  assert (Refl : forall s1, cache_grows s1 s1) by (intros; now apply Same).
  repeat split; intros.
  - apply (all_processControllers re_test cache_grows Refl cache_grows_trans);
      auto using cache_grows_append, cache_grows_mark.
  - apply (all_processTriggers re_test cache_grows Refl cache_grows_trans);
      auto using cache_grows_append, cache_grows_mark.
  - apply (all_go re_test cache_grows Refl cache_grows_trans);
      auto using cache_grows_append, cache_grows_mark.
  - apply (all_start re_test cache_grows Refl cache_grows_trans);
      auto using cache_grows_append, cache_grows_mark.
    intros s1 kv. apply Same. apply compile_route_frame.
Qed.

Lemma fired_stays_fired_witness :
  fired "home" Scenario.app_fired = true /\
  fired "home"
    (final (go Scenario.lit 4 (GName (Some "nope")) AUndefined
              Scenario.no_nav Scenario.app_fired)) = true.
Proof.
  assert (F : fired "home" Scenario.app_fired = true)
    by (vm_compute; reflexivity).
  split; [exact F|].
  destruct (fired_stays_fired Scenario.lit "home" Scenario.app_fired F)
    as [_ [_ [G _]]].
  apply G.
Defined.

(** X5: the cache never holds two records of one name, whatever has been
    called. *)
Theorem one_record_per_name
    (re_test : string -> string -> bool) (pathname hash : string)
    (s : state) :
  after re_test (init pathname hash) s -> NoDup (cached_names s).
Proof.
  intros A.
  assert (Same : forall s1 s2, cachedTriggers s2 = cachedTriggers s1 ->
                               NoDup (cached_names s1) ->
                               NoDup (cached_names s2)).
  { intros s1 s2 E. unfold cached_names. now rewrite E. }
  assert (I : NoDup (cached_names (init pathname hash))) by constructor.
  revert A I.
  apply (all_after re_test
           (fun a b => NoDup (cached_names a) -> NoDup (cached_names b)));
    auto.
  - intros s1 name d. apply Same. apply route_frame.
  - intros s1 n a c Fn. apply cache_grows_append. exact Fn.
  - intros s1 i. apply cache_grows_mark.
  - intros s1 _. constructor.
  - intros s1 kv. apply Same. apply compile_route_frame.
Qed.

Lemma one_record_per_name_witness :
  after Scenario.lit (init "/home" "") Scenario.app_fired /\
  NoDup (cached_names Scenario.app_fired).
Proof.
  assert (A : after Scenario.lit (init "/home" "") Scenario.app_fired).
  { eapply after_trans; [exact scenario_app_after|].
    unfold Scenario.app_fired.
    apply (@after_processTriggers Scenario.lit Scenario.app Scenario.app 8
             (TsOne (TObj "home" None true))).
    constructor. }
  split; [exact A|].
  exact (one_record_per_name Scenario.lit "/home" "" _ A).
Defined.

(** ** What a dispatch does to the stored path and to [currentRoutes] *)

Lemma store_rule_quiet (s s' : state) :
  config s' = config s -> stored s' = stored s -> store_rule s s'.
Proof. intros C E. split; auto. Qed.

Lemma store_rule_trans (s1 s2 s3 : state) :
  store_rule s1 s2 -> store_rule s2 s3 -> store_rule s1 s3.
Proof.
  intros [C1 S1] [C2 S2]. split; [congruence|].
  destruct S2 as [E|[o [O [Rd [Au E]]]]].
  - rewrite E. exact S1.
  - right. exists o.
    assert (this_options s2 = this_options s1 /\
            pathname s2 = pathname s1 /\ hash s2 = hash s1) as [EO [EP EH]].
    { unfold config in C1. inversion C1. auto. }
    rewrite EO in O. repeat split; auto.
    rewrite E. unfold raw_path. now rewrite EP, EH.
Qed.

Lemma store_rule_store (s1 : state) (o : options) :
  this_options s1 = Some o ->
  redirectToLogin o && negb (authed o) = true ->
  store_rule s1
    (set_stored
       (Some (substring1 (if pushState o then pathname s1 else hash s1)))
       s1).
Proof.
  intros O C. apply andb_true_iff in C. destruct C as [Rd Au].
  apply negb_true_iff in Au. split; auto. right. exists o.
  repeat split; auto. simpl. unfold raw_path. now destruct (pushState o).
Qed.

Lemma dispatch_store_rule re_test fuel name args trigger s :
  store_rule s (final (processControllers re_test fuel name args trigger s)).
Proof.
  apply (keeps_processControllers re_test store_rule
           (fun s1 => store_rule_quiet s1 s1 eq_refl eq_refl)
           store_rule_trans); try exact store_rule_store;
    intros; now apply store_rule_quiet.
Qed.


(** X7: a dispatch (of a chain, or of triggers) only pushes on
    [currentRoutes]: the names that were there stay, in their order, at
    the front of the list. *)
Theorem dispatch_only_pushes
    (re_test : string -> string -> bool) (fuel : nat) (s : state) :
  (forall name args trigger,
      stack_grows s
        (final (processControllers re_test fuel name args trigger s)))
  /\ (forall ts,
        stack_grows s
          (final (processTriggers re_test (processControllers re_test fuel)
                    ts s))).
Proof.
  assert (Same : forall s1 s2, currentRoutes s2 = currentRoutes s1 ->
                               stack_grows s1 s2).
  { intros s1 s2 E. exists []. now rewrite app_nil_r. }
  assert (Trans : forall s1 s2 s3, stack_grows s1 s2 -> stack_grows s2 s3 ->
                                   stack_grows s1 s3).
  { intros s1 s2 s3 [l1 E1] [l2 E2]. exists (l1 ++ l2).
    now rewrite E2, E1, app_assoc. }
  assert (Push : forall s1 n,
             stack_grows s1
               (set_currentRoutes (currentRoutes s1 ++ [n]) s1)).
  { intros s1 n. now exists [n]. }
  assert (PC : forall f name args trigger,
             keeps stack_grows
               (processControllers re_test f name args trigger)).
  { intros. apply keeps_processControllers; auto;
      intros; now apply Same. }
  split.
  - intros. apply PC.
  - intros. apply keeps_processTriggers; auto; intros; now apply Same.
Qed.

(** ** [path] and [getPath] *)











(** ** What [start] compiles *)

Lemma set_extendedController_same (s : state) :
  set_extendedController (extendedController s) s = s.
Proof. now destruct s. Qed.

Lemma forEach_compile re_test (kvs : list (string * string)) :
  forall s,
    forEach kvs (compile_route re_test) s
    = Ret tt (set_extendedController (compiled kvs (extendedController s)) s).
Proof.
  induction kvs as [|[p name] r IH]; intros s; simpl.
  - unfold ret. now rewrite set_extendedController_same.
  - unfold bind, compile_route. rewrite exists_by_name. unfold is_route.
    simpl. destruct (truthy name); simpl.
    + destruct (Obj.get name (extendedController s)) as [c|] eqn:G.
      * now rewrite IH.
      * now rewrite IH.
    + now rewrite IH.
Qed.

Lemma config_chains (s s' : state) :
  config s' = config s -> extendedController s' = extendedController s.
Proof.
  unfold config. intros C. now inversion C.
Qed.

Lemma start_chains re_test fuel vent user started loaded s :
  dispatcher s = false ->
  extendedController
    (final (start re_test fuel (App vent) user started loaded s))
  = compiled (Obj.entries (routes s)) (extendedController s).
Proof.
  intros D. unfold start. unfold bind at 1. simpl. unfold bind at 1. simpl.
  rewrite D. unfold bind at 1. simpl. unfold bind at 1. simpl.
  unfold bind at 1. rewrite forEach_compile. simpl.
  match goal with
  | |- extendedController (final (?m ?s1)) = _ =>
      assert (K : keeps (fun a b => config b = config a) m)
  end.
  { assert (KB : forall A B (m : M A) (k : A -> M B),
               keeps (fun a b => config b = config a) m ->
               (forall a, keeps (fun a b => config b = config a) (k a)) ->
               keeps (fun a b => config b = config a) (bind m k)).
    { intros A B m k. apply keeps_bind. congruence. }
    apply KB; [|now intros _ s1].
    destruct started; [now intros s1|].
    apply KB; [intros s1; apply sound_log|intros _].
    apply KB; [intros s1; now destruct (this_options s1)|intros _].
    destruct loaded as [[name arguments]|].
    - apply KB; [intros s1; apply sound_processControllers|].
      intros _ s1. destruct (getStoredRoute s1) as [r|]; auto.
      destruct (truthy r); auto.
      apply KB; [intros s2; apply sound_log|intros _].
      apply KB; [now intros s2|intros _].
      apply KB; [intros s2; apply go_config|now intros _ s2].
    - apply KB; [intros s1; apply sound_log|intros _ s1].
      destruct (this_options s1); auto.
      apply sound_processControllers. }
  match goal with
  | |- extendedController (final (?m ?s1)) = _ =>
      rewrite (config_chains _ _ (K s1)); reflexivity
  end.
Qed.

Lemma compiled_re (n p : string) (kvs : list (string * string)) :
  truthy n = true ->
  (forall p', In (p', n) kvs -> p' = p) ->
  forall ec,
    has n ec = true ->
    In (p, n) kvs \/ (exists c, Obj.get n ec = Some c /\ re c = Some p) ->
    exists c, Obj.get n (compiled kvs ec) = Some c /\ re c = Some p.
Proof.
  intros T. induction kvs as [|[p1 n1] r IH]; intros U ec H C; simpl.
  - destruct C as [[]|C]. exact C.
  - assert (U' : forall p', In (p', n) r -> p' = p)
      by (intros; apply U; simpl; auto).
    destruct (String.eqb n1 n) eqn:E.
    + apply String.eqb_eq in E. subst n1. rewrite T.
      assert (p1 = p) by (apply U; simpl; auto). subst p1.
      destruct (has_get _ _ H) as [c G]. rewrite G.
      apply IH; auto.
      * apply has_set_same.
      * right. rewrite ObjFacts.get_set_eq. eauto.
    + assert (NE : n <> n1).
      { intros ->. now rewrite String.eqb_refl in E. }
      assert (K : forall ec',
                 ec' = (if truthy n1
                        then match Obj.get n1 ec with
                             | Some c =>
                                 Obj.set n1 {| re := Some p1;
                                               wrappers := wrappers c |} ec
                             | None => ec
                             end
                        else ec) ->
                 Obj.get n ec' = Obj.get n ec).
      { intros ec' ->. destruct (truthy n1); auto.
        destruct (Obj.get n1 ec); auto.
        now rewrite ObjFacts.get_set_ne. }
      apply IH; auto.
      * unfold has. rewrite (K _ eq_refl). exact H.
      * destruct C as [[I|I]|C].
        -- inversion I; subst. contradiction.
        -- auto.
        -- right. now rewrite (K _ eq_refl).
Qed.

(** X10: [start] compiles the path of every owner.  When a non-empty name
    owns just one path, the first [start] with an application object puts
    the matcher of that path into the chain of the name, however the rest
    of [start] goes, and [exists({path: x})] is then true for every
    non-empty [x] which that matcher accepts. *)
Theorem start_compiles_paths
    (re_test : string -> string -> bool) (pathname hash : string)
    (s : state) (p name : string) (fuel : nat) (vent : bool)
    (user : start_options) (started : bool)
    (loaded : option (string * list value)) :
  after re_test (init pathname hash) s ->
  dispatcher s = false ->
  Obj.get p (routes s) = Some name ->
  truthy name = true ->
  (forall p', Obj.get p' (routes s) = Some name -> p' = p) ->
  (exists c,
      Obj.get name
        (extendedController
           (final (start re_test fuel (App vent) user started loaded s)))
      = Some c /\ re c = Some p)
  /\ (forall x,
        truthy x = true -> re_test p x = true ->
        exists_ re_test (by_path x)
          (final (start re_test fuel (App vent) user started loaded s))
        = true).
Proof.
  intros A D G T U.
  destruct (after_registry_ok re_test _ _ A (init_registry_ok _ _))
    as [N W].
  destruct (W _ _ G T) as [_ HC].
  assert (C : exists c,
             Obj.get name
               (compiled (Obj.entries (routes s)) (extendedController s))
             = Some c /\ re c = Some p).
  { apply compiled_re; auto.
    - intros p' I. apply U. apply in_get; auto. now apply entries_in.
    - left. apply in_entries. now apply get_in. }
  rewrite <- (start_chains re_test fuel vent user started loaded s D) in C.
  split; [exact C|].
  intros x Tx Mx. destruct C as [c [Gc Rc]].
  unfold exists_, by_path. simpl. rewrite Tx.
  apply existsb_exists. exists (name, c). split.
  - apply in_entries. now apply get_in.
  - unfold matcher_accepts. simpl. now rewrite Rc.
Qed.

Lemma start_compiles_paths_witness :
  after Scenario.lit (init "/home" "") Scenario.declared /\
  dispatcher Scenario.declared = false /\
  Obj.get "admin" (routes Scenario.declared) = Some "admin" /\
  exists_ Scenario.lit (by_path "admin")
    (final (start Scenario.lit 4 (App true) Scenario.no_user false None
              Scenario.declared)) = true.
Proof.
  assert (A : after Scenario.lit (init "/home" "") Scenario.declared).
  { apply after_declare. constructor. }
  assert (U : forall p', Obj.get p' (routes Scenario.declared) = Some "admin"
                         -> p' = "admin").
  { intros p' G. apply get_in in G. vm_compute in G.
    repeat (destruct G as [G|G]; [inversion G; reflexivity || discriminate|]).
    contradiction. }
  split; [exact A|]. split; [reflexivity|]. split; [reflexivity|].
  apply (proj2 (start_compiles_paths Scenario.lit "/home" "" Scenario.declared
                  "admin" "admin" 4 true Scenario.no_user false None
                  A eq_refl eq_refl eq_refl U)).
  - reflexivity.
  - reflexivity.
Defined.

(** ** [go] *)











(** ** One wrapper *)

Lemma config_dispatcher (s s' : state) :
  config s' = config s -> dispatcher s' = dispatcher s.
Proof. unfold config. intros C. now inversion C. Qed.

Lemma bind_eval {A B} (m : M A) (k : A -> M B) (s s' : state) (a : A) :
  m s = Ret a s' -> bind m k s = k a s'.
Proof. intros E. unfold bind. now rewrite E. Qed.

Lemma emit_all_frame evs :
  forall s, config (emit_all evs s) = config s /\
            trace (emit_all evs s) = trace s ++ evs.
Proof.
  induction evs as [|e r IH]; intros s; simpl.
  - now rewrite app_nil_r.
  - destruct (IH (emit e s)) as [C T]. split; [exact C|].
    rewrite T. simpl. now rewrite <- app_assoc.
Qed.

Lemma emit_all_app evs1 evs2 s :
  emit_all (evs1 ++ evs2) s = emit_all evs2 (emit_all evs1 s).
Proof. unfold emit_all. now rewrite fold_left_app. Qed.

Lemma forEach_fires re_test pc (names : list string) :
  forall s,
    dispatcher s = true ->
    Forall (fun n => is_route n s = false) names ->
    forEach (List.map TStr names) (processTrigger re_test pc) s
    = Ret tt (emit_all (fired_names names) s).
Proof.
  induction names as [|n r IH]; intros s D F; simpl; auto.
  inversion F as [|x l Hn Hr]; subst.
  unfold bind. rewrite exists_by_name, Hn. unfold dispatch. rewrite D.
  apply IH; auto.
Qed.

Lemma triggers_fire re_test pc (names : list string) (s : state) :
  dispatcher s = true ->
  Forall (fun n => is_route n s = false) names ->
  (if isEmpty (TsMany (List.map TStr names)) then ret tt
   else processTriggers re_test pc (TsMany (List.map TStr names))) s
  = Ret tt (emit_all (fired_names names) s).
Proof.
  intros D F. destruct names as [|n r]; [reflexivity|].
  change (isEmpty (TsMany (List.map TStr (n :: r)))) with false.
  cbv iota. now apply forEach_fires.
Qed.

(** X14: a wrapper that passes its auth check runs its parts in order.
    With [before] and [after] arrays of names that are not routes, an
    action that is a function, and a dispatcher, the wrapper pushes its
    name (unless called for a trigger), gives the [before] names to the
    dispatcher in their order, calls the action with the arguments, gives
    the [after] names to the dispatcher in their order, and returns
    [undefined]; nothing else changes. *)
Theorem wrapper_runs_in_order
    (re_test : string -> string -> bool)
    (pc : string -> jsargs -> bool -> M unit) (w : wrapper) (f : nat)
    (bs afs : list string) (args : list value) (trigger : bool)
    (s : state) :
  gate_ok w s ->
  def_action (def w) = Invoke f ->
  def_before (def w) = TsMany (List.map TStr bs) ->
  def_after (def w) = TsMany (List.map TStr afs) ->
  dispatcher s = true ->
  Forall (fun n => is_route n s = false) (bs ++ afs) ->
  controllerWrapper re_test pc w args trigger s
  = Ret VUndefined
      (emit_all (fired_names bs ++ [EAction w args] ++ fired_names afs)
         (pushed trigger w s)).
Proof.
  intros [o [O G]] A B Af D F.
  apply Forall_app in F. destruct F as [Fb Fa].
  rewrite wrapper_start, O.
  assert (R : run_route re_test pc w args (pushed trigger w s)
              = Ret VUndefined
                  (emit_all
                     (fired_names bs ++ [EAction w args] ++ fired_names afs)
                     (pushed trigger w s))).
  { unfold run_route. rewrite A, B, Af.
    pose proof (pushed_options trigger w s) as O'. rewrite O in O'.
    rewrite log_bind with (o := o) by exact O'.
    assert (D1 : dispatcher (pushed trigger w s) = true)
      by now destruct trigger.
    assert (I1 : forall n st, config st = config s ->
                              is_route n st = is_route n s).
    { intros n st C. unfold config in C.
      inversion C as [[R0 ER0 EC0 CC0 O0 D0 Ro0 P0 H0]].
      unfold is_route. now rewrite EC0. }
    assert (Cp : config (pushed trigger w s) = config s)
      by now destruct trigger.
    assert (Fb' : Forall (fun n => is_route n (pushed trigger w s) = false)
                    bs).
    { eapply Forall_impl; [|exact Fb]. intros n H. now rewrite I1. }
    cbv beta.
    rewrite (bind_eval _ _ _ _ _
               (triggers_fire re_test pc bs (pushed trigger w s) D1 Fb')).
    destruct (emit_all_frame (fired_names bs) (pushed trigger w s))
      as [C2 _].
    unfold bind at 1. simpl.
    assert (D2 : dispatcher
                   (emit (EAction w args)
                      (emit_all (fired_names bs) (pushed trigger w s)))
                 = true).
    { change (dispatcher (emit_all (fired_names bs) (pushed trigger w s))
              = true).
      rewrite (config_dispatcher _ _ C2). exact D1. }
    assert (Fa' : Forall
                    (fun n => is_route n
                                (emit (EAction w args)
                                   (emit_all (fired_names bs)
                                      (pushed trigger w s))) = false) afs).
    { eapply Forall_impl; [|exact Fa]. intros n H.
      rewrite I1; auto.
      change (config (emit_all (fired_names bs) (pushed trigger w s))
              = config s). congruence. }
    rewrite (bind_eval _ _ _ _ _ (triggers_fire re_test pc afs _ D2 Fa')).
    unfold ret. f_equal. rewrite !emit_all_app. reflexivity. }
  destruct (def_authed (def w)); [rewrite G|]; exact R.
Qed.

Lemma wrapper_runs_in_order_witness :
  gate_ok
    {| currentName := "item";
       def := {| def_path := Some "item"; def_authed := Some false;
                 def_before := TsMany (List.map TStr ["core:show"; "menu"]);
                 def_action := Invoke 5;
                 def_after := TsMany (List.map TStr ["stats"]);
                 def_close := None |} |} Scenario.app /\
  controllerWrapper Scenario.lit (processControllers Scenario.lit 4)
    {| currentName := "item";
       def := {| def_path := Some "item"; def_authed := Some false;
                 def_before := TsMany (List.map TStr ["core:show"; "menu"]);
                 def_action := Invoke 5;
                 def_after := TsMany (List.map TStr ["stats"]);
                 def_close := None |} |} [VNum 3] false Scenario.app
  = Ret VUndefined
      (emit_all
         (fired_names ["core:show"; "menu"] ++
          [EAction
             {| currentName := "item";
                def := {| def_path := Some "item"; def_authed := Some false;
                          def_before :=
                            TsMany (List.map TStr ["core:show"; "menu"]);
                          def_action := Invoke 5;
                          def_after := TsMany (List.map TStr ["stats"]);
                          def_close := None |} |} [VNum 3]] ++
          fired_names ["stats"])
         (pushed false
            {| currentName := "item";
               def := {| def_path := Some "item"; def_authed := Some false;
                         def_before :=
                           TsMany (List.map TStr ["core:show"; "menu"]);
                         def_action := Invoke 5;
                         def_after := TsMany (List.map TStr ["stats"]);
                         def_close := None |} |} Scenario.app)).
Proof.
  assert (G : gate_ok
    {| currentName := "item";
       def := {| def_path := Some "item"; def_authed := Some false;
                 def_before := TsMany (List.map TStr ["core:show"; "menu"]);
                 def_action := Invoke 5;
                 def_after := TsMany (List.map TStr ["stats"]);
                 def_close := None |} |} Scenario.app).
  { exists defaultOptions. split; reflexivity. }
  split; [exact G|].
  apply (wrapper_runs_in_order Scenario.lit _ _ 5 ["core:show"; "menu"]
           ["stats"] [VNum 3] false Scenario.app G);
    try reflexivity.
  repeat constructor.
Defined.

(** X15: a route for logged-out users only ([authed: false]) that a
    logged-in user reaches is answered with the [403] route, also when
    [redirectToLogin] is set: the wrapper pushes its name (unless called
    for a trigger), hands [403] with the current raw path to
    [processControllers] once and returns [false]; its action is not
    called and nothing is stored. *)
Theorem logged_out_route_forbidden
    (re_test : string -> string -> bool) (fuel : nat) (w : wrapper)
    (args : list value) (trigger : bool) (s : state) (o : options) :
  def_authed (def w) = Some false ->
  this_options s = Some o ->
  authed o = true ->
  let pc := processControllers re_test fuel in
  controllerWrapper re_test pc w args trigger s
  = (pc "403" (AArr [VStr (raw_path o s)]) false ;; ret (VBool false))
      (pushed trigger w s)
  /\ (forall a, In (EAction w a)
                  (trace (final (controllerWrapper re_test pc w args
                                   trigger s)))
                -> In (EAction w a) (trace s))
  /\ stored (final (controllerWrapper re_test pc w args trigger s))
     = stored s.
Proof.
  intros A O U pc.
  assert (E : controllerWrapper re_test pc w args trigger s
              = (pc "403" (AArr [VStr (raw_path o s)]) false ;;
                 ret (VBool false)) (pushed trigger w s)).
  { rewrite wrapper_start, A, O. unfold gate_fails. rewrite U. simpl.
    unfold gate_failure. rewrite U, andb_false_r.
    pose proof (pushed_options trigger w s) as O'. rewrite O in O'.
    rewrite bind_assoc, log_bind with (o := o) by exact O'.
    unfold bind.
    replace (raw_path o (pushed trigger w s)) with (raw_path o s)
      by now destruct trigger.
    reflexivity. }
  split; [exact E|]. split.
  - intros a I.
    pose proof (sound_controllerWrapper re_test pc
                  (sound_processControllers re_test fuel) w args trigger s)
      as St.
    destruct (steps_new_event _ _ _ St I) as [|[[o' [O' G]] _]]; auto.
    rewrite A in G. rewrite O in O'. inversion O'; subst o'.
    unfold gate_fails in G. rewrite U in G. discriminate.
  - rewrite E.
    destruct (dispatch_store_rule re_test fuel "403"
                (AArr [VStr (raw_path o s)]) false (pushed trigger w s))
      as [_ [S|[o' [O' [_ [Au _]]]]]].
    + subst pc. revert S. unfold bind.
      destruct (processControllers re_test fuel "403"
                  (AArr [VStr (raw_path o s)]) false (pushed trigger w s));
        simpl; intros S; rewrite S; now destruct trigger.
    + rewrite pushed_options, O in O'. inversion O'; subst o'. congruence.
Qed.

Lemma logged_out_route_forbidden_witness :
  def_authed (def (wrapper_of "signup" Member.signup)) = Some false /\
  this_options Member.app = Some (extend_options Member.logged_in) /\
  authed (extend_options Member.logged_in) = true /\
  controllerWrapper Scenario.lit (processControllers Scenario.lit 4)
    (wrapper_of "signup" Member.signup) [] false Member.app
  = (processControllers Scenario.lit 4 "403"
       (AArr [VStr (raw_path (extend_options Member.logged_in) Member.app)])
       false ;; ret (VBool false))
      (pushed false (wrapper_of "signup" Member.signup) Member.app).
Proof.
  assert (O : this_options Member.app
              = Some (extend_options Member.logged_in))
    by (vm_compute; reflexivity).
  split; [reflexivity|]. split; [exact O|]. split; [reflexivity|].
  exact (proj1 (logged_out_route_forbidden Scenario.lit 4
                  (wrapper_of "signup" Member.signup) [] false Member.app
                  (extend_options Member.logged_in) eq_refl O eq_refl)).
Defined.

(** X16: a route that is an alias of itself never completes a dispatch:
    when the first wrapper of the chain of [name] is an alias of [name]
    that passes its auth check, [processControllers(name)] is still
    running whatever the fuel (in JavaScript the recursion ends in a stack
    overflow). *)
Theorem self_alias_never_returns
    (re_test : string -> string -> bool) (name : string) (w : wrapper)
    (rest : list wrapper) (r : option string) (o : options) :
  def_action (def w) = AliasTo name ->
  match def_authed (def w) with
  | Some required => gate_fails required o = false
  | None => True
  end ->
  forall fuel args trigger s,
    Obj.get name (extendedController s)
    = Some {| re := r; wrappers := w :: rest |} ->
    this_options s = Some o ->
    exists s', processControllers re_test fuel name args trigger s
               = OutOfFuel s'.
Proof.
  intros A G. induction fuel as [|fuel IH]; intros args trigger s C O; simpl.
  - eauto.
  - rewrite C. simpl. unfold bind at 1. unfold bind at 1.
    rewrite wrapper_start, O.
    assert (R : exists s',
               run_route re_test (processControllers re_test fuel) w
                 (match args with AArr a => a | _ => [] end)
                 (pushed trigger w s) = OutOfFuel s').
    { unfold run_route. rewrite A.
      pose proof (pushed_options trigger w s) as O'. rewrite O in O'.
      rewrite log_bind with (o := o) by exact O'.
      destruct (IH (AArr (match args with AArr a => a | _ => [] end)) true
                  (pushed trigger w s)) as [s' E].
      - now destruct trigger.
      - exact O'.
      - exists s'. unfold bind. now rewrite E. }
    destruct R as [s' R].
    destruct (def_authed (def w)); [rewrite G|]; rewrite R; eauto.
Qed.

Lemma self_alias_never_returns_witness :
  def_action (def (wrapper_of "loop" Member.loop)) = AliasTo "loop" /\
  Obj.get "loop" (extendedController Member.app)
  = Some {| re := Some "loop";
            wrappers := [wrapper_of "loop" Member.loop] |} /\
  this_options Member.app = Some (extend_options Member.logged_in) /\
  exists s', processControllers Scenario.lit 50 "loop" (AArr [VNum 1]) false
               Member.app = OutOfFuel s'.
Proof.
  assert (C : Obj.get "loop" (extendedController Member.app)
              = Some {| re := Some "loop";
                        wrappers := [wrapper_of "loop" Member.loop] |})
    by (vm_compute; reflexivity).
  assert (O : this_options Member.app
              = Some (extend_options Member.logged_in))
    by (vm_compute; reflexivity).
  split; [reflexivity|]. split; [exact C|]. split; [exact O|].
  exact (self_alias_never_returns Scenario.lit "loop"
           (wrapper_of "loop" Member.loop) [] (Some "loop")
           (extend_options Member.logged_in) eq_refl I
           50 (AArr [VNum 1]) false Member.app C O).
Defined.

(** ** More on the path parser *)

Lemma parse_parts_plain (segments : list string) (args : list value) k :
  Forall (fun seg => charAt0_is ":"%char seg = false) segments ->
  List.map join_string (parse_parts segments args k) = segments.
Proof.
  induction 1 as [|seg r H F IH]; simpl; auto.
  rewrite H. simpl. now rewrite IH.
Qed.

(** X17: [parse] leaves a template without parameter segments as it is,
    whatever the arguments. *)
Theorem parse_without_parameters (template : string) (args : jsargs) :
  Forall (fun seg => charAt0_is ":"%char seg = false)
    (split_slash template) ->
  parse template args = template.
Proof.
  intros F. unfold parse. destruct args as [| |[|a l]]; auto.
  rewrite parse_parts_plain by exact F. apply join_split.
Qed.

Lemma parse_without_parameters_witness :
  Forall (fun seg => charAt0_is ":"%char seg = false)
    (split_slash "/shop/items/new") /\
  parse "/shop/items/new" (AArr [VNum 1; VStr "x"]) = "/shop/items/new".
Proof.
  assert (F : Forall (fun seg => charAt0_is ":"%char seg = false)
                (split_slash "/shop/items/new"))
    by (repeat constructor).
  split; [exact F|].
  exact (parse_without_parameters "/shop/items/new" _ F).
Defined.

(** ** The stored path *)



(** ** Navigation by path *)


